(** * distributedDataStore: a write-ahead-logged key/value store

    Shallow embedding of [distributedDataStore/main.go] and the properties
    its specification states about it.

    - The in-memory table [map[string][]byte] is a [gmap string (list byte)].
    - The log file is a [list byte] held in a path-indexed file system; the
      operating system is an explicit [World] that is threaded through every
      operation, together with an oracle for the system calls that fail.
    - [logFileLock] serialises [Set], [Delete], [ReplayWriteAheadLog] and the
      flusher's tick, so each of them is one atomic state transformer. *)

From Stdlib Require Import ZArith Lia.
From Stdlib.Strings Require Import Byte String.
From stdpp Require Import base option list gmap strings pretty.

#[local] Open Scope Z_scope.

(* ===================================================================== *)
(** * Bytes and the 4-byte little-endian length prefix                   *)
(* ===================================================================== *)

Module Bytes.

#[global] Instance byte_eq_dec : EqDecision byte := Byte.byte_eq_dec.

(** Go's [byte(v)] conversion: the low eight bits. *)
Definition byte_of_Z (z : Z) : byte :=
  default x00 (Byte.of_N (Z.to_N (z mod 256))).

Definition Z_of_byte (b : byte) : Z := Z.of_N (Byte.to_N b).

(** [binary.LittleEndian.PutUint32(buf, v)] on a 4-byte buffer. *)
Definition PutUint32 (v : Z) : list byte :=
  [ byte_of_Z v; byte_of_Z (Z.shiftr v 8);
    byte_of_Z (Z.shiftr v 16); byte_of_Z (Z.shiftr v 24) ].

(** [binary.LittleEndian.Uint32(b)].  Go panics on a slice shorter than
    four bytes; the replayer only calls it on a buffer that a successful
    4-byte read has filled. *)
Definition Uint32 (b : list byte) : Z :=
  match b with
  | b0 :: b1 :: b2 :: b3 :: _ =>
      Z.lor (Z_of_byte b0)
        (Z.lor (Z.shiftl (Z_of_byte b1) 8)
           (Z.lor (Z.shiftl (Z_of_byte b2) 16) (Z.shiftl (Z_of_byte b3) 24)))
  | _ => 0
  end.

(** [uint32(n)] and [int64] arithmetic: wrap-around written out. *)
Definition uint32 (n : Z) : Z := n mod 2 ^ 32.
Definition int64 (n : Z) : Z := (n + 2 ^ 63) mod 2 ^ 64 - 2 ^ 63.

End Bytes.
Export Bytes.

(* ===================================================================== *)
(** * Log entries and their codec                                        *)
(* ===================================================================== *)

(** [const ( INSERT = iota; UPDATE; DELETE )] *)
Definition INSERT : Z := 0.
Definition UPDATE : Z := 1.
Definition DELETE : Z := 2.

(** [contract.LogEntry]: the three fields the program reads and writes. *)
Record LogEntry := mkLogEntry {
  Op : Z;
  Key : string;
  Value : list byte;
}.

#[global] Instance LogEntry_eq_dec : EqDecision LogEntry.
Proof. solve_decision. Defined.

(** The [contract] package (generated from [contract/log.proto]) and the
    protobuf runtime are not part of the sources.  [proto.Marshal] and
    [proto.Unmarshal] on a [LogEntry] are therefore an interface: both can
    fail ([None] is the non-nil [error]). *)
Class ProtoCodec := {
  Marshal : LogEntry → option (list byte);
  Unmarshal : list byte → option LogEntry;
}.

(** What the program relies on: what was marshalled unmarshals to the same
    entry. *)
Class ProtoRoundTrip `{ProtoCodec} := {
  Unmarshal_Marshal : ∀ e b, Marshal e = Some b → Unmarshal b = Some e;
}.

(** The errors that the operations can hand back. *)
Inductive error :=
  | ErrIO         (* a system call failed *)
  | ErrNotExist   (* the path names no file *)
  | ErrInvalid    (* os.ErrInvalid: method called on a nil *os.File *)
  | ErrProto.     (* proto.Marshal / proto.Unmarshal failed *)

#[global] Instance error_eq_dec : EqDecision error.
Proof. solve_decision. Defined.

(* ===================================================================== *)
(** * Replaying a log                                                    *)
(* ===================================================================== *)

(** [file.ReadAt(b, off)] with [len(b) = n] on a regular file holding
    [file].  [os.File.ReadAt] loops [for len(b) > 0] over [pread]: with an
    empty buffer it returns [nil] at once, and otherwise a read that meets
    the end of the file before [n] bytes returns [io.EOF] ([None]). *)
Definition ReadAt (file : list byte) (n off : nat) : option (list byte) :=
  if decide (n = 0%nat) then Some []
  else if decide (off + n ≤ length file)%nat then Some (take n (drop off file))
  else None.

Section Replay.
Context `{ProtoCodec}.

(** The [for] loop of [ReplayWriteAheadLog].  The result is the returned
    [error] ([None] for [nil]) and the table as the loop left it: the table
    is updated in place, so an error keeps what was applied before it.
    [fuel] bounds the number of iterations; [None] means it ran out. *)
Fixpoint replay_loop (fuel : nat) (file : list byte) (offset : nat)
    (data : gmap string (list byte))
    : option (option error * gmap string (list byte)) :=
  match fuel with
  | O => None
  | S fuel =>
      match ReadAt file 4 offset with
      | None => Some (None, data)                            (* io.EOF: break *)
      | Some buf =>
          let itemSize := Z.to_nat (Uint32 buf) in
          let offset := (offset + 4)%nat in
          match ReadAt file itemSize offset with
          | None => Some (None, data)                        (* io.EOF: break *)
          | Some item =>
              match Unmarshal item with
              | None => Some (Some ErrProto, data)           (* return err *)
              | Some entry =>
                  replay_loop fuel file (offset + itemSize)%nat
                    (<[Key entry := Value entry]> data)
              end
          end
      end
  end.

(** Every iteration that continues has read four bytes, so the length of
    the file bounds the number of iterations. *)
Definition replay (file : list byte) (data : gmap string (list byte)) :=
  replay_loop (S (length file)) file 0 data.

End Replay.

(* ===================================================================== *)
(** * The world outside the process                                      *)
(* ===================================================================== *)

(** A reading of the wall clock, broken down as [time.Time.Format] sees it. *)
Record Time := mkTime {
  year : nat; month : nat; day : nat;
  hour : nat; minute : nat; second : nat;
  nanosecond : nat;
}.

(** [appendInt(b, x, width)] of package [time]: decimal, zero-padded on the
    left up to [width] digits. *)
Definition appendInt (x width : nat) : string :=
  let digits := pretty x in
  String.concat "" (replicate (width - String.length digits) "0") +:+ digits.

(** [t.Format("20060102_150405")]. *)
Definition Format (t : Time) : string :=
  appendInt (year t) 4 +:+ appendInt (month t) 2 +:+ appendInt (day t) 2
    +:+ "_" +:+
  appendInt (hour t) 2 +:+ appendInt (minute t) 2 +:+ appendInt (second t) 2.

(** The file system maps a path to the contents of the file.  [faults] is
    the oracle for the write-side system calls (open for append, write,
    close, rename, sync): each call consumes one entry and fails when it is
    [true]; an exhausted oracle means no more failures.  A write that fails
    is modelled as writing nothing.  [now] is what [time.Now()] returns. *)
Record World := mkWorld {
  files : gmap string (list byte);
  faults : list bool;
  now : Time;
}.

Definition with_files (fs : gmap string (list byte)) (w : World) : World :=
  {| files := fs; faults := faults w; now := now w |}.

(** Consult the oracle for the next system call. *)
Definition next_fault (w : World) : bool * World :=
  match faults w with
  | [] => (false, w)
  | b :: bs => (b, {| files := files w; faults := bs; now := now w |})
  end.

(** [os.OpenFile(path, O_WRONLY|O_CREATE|O_APPEND, 0644)]: the file is
    created empty when it does not exist. *)
Definition sys_open_append (path : string) (w : World) : option error * World :=
  let '(fails, w) := next_fault w in
  if fails then (Some ErrIO, w)
  else (None, with_files (<[path := default [] (files w !! path)]> (files w)) w).

(** [(f *os.File).Write(b)] on a descriptor opened with [O_APPEND] on
    [path]. *)
Definition sys_write (path : string) (b : list byte) (w : World)
    : option error * World :=
  let '(fails, w) := next_fault w in
  if fails then (Some ErrIO, w)
  else (None, with_files (<[path := default [] (files w !! path) ++ b]> (files w)) w).

(** [(f *os.File).Close()] and [(f *os.File).Sync()]: no effect on the
    contents of any file. *)
Definition sys_close (w : World) : option error * World :=
  let '(fails, w) := next_fault w in
  ((if fails then Some ErrIO else None), w).

Definition sys_sync (w : World) : option error * World :=
  let '(fails, w) := next_fault w in
  ((if fails then Some ErrIO else None), w).

(** [os.Rename(oldpath, newpath)]: replaces [newpath] when it exists. *)
Definition sys_rename (oldpath newpath : string) (w : World)
    : option error * World :=
  let '(fails, w) := next_fault w in
  if fails then (Some ErrIO, w)
  else match files w !! oldpath with
       | None => (Some ErrNotExist, w)
       | Some c => (None, with_files (<[newpath := c]> (delete oldpath (files w))) w)
       end.

(* ===================================================================== *)
(** * The database                                                       *)
(* ===================================================================== *)

(** [type Database struct].  [logFilePtr] is [nil] ([None]) or an open
    descriptor, which is identified with the path it was opened on: the
    program never renames a file it holds open.  [logFileLock] has no
    field: every operation below is one critical section. *)
Record Database := mkDatabase {
  data : gmap string (list byte);
  writeAhead : list LogEntry;
  logFile : string;
  logFilePtr : option string;
  logFileSize : Z;
  rotateSize : Z;
}.

Definition set_data (m : gmap string (list byte)) (db : Database) : Database :=
  mkDatabase m (writeAhead db) (logFile db) (logFilePtr db) (logFileSize db) (rotateSize db).
Definition set_writeAhead (l : list LogEntry) (db : Database) : Database :=
  mkDatabase (data db) l (logFile db) (logFilePtr db) (logFileSize db) (rotateSize db).
Definition set_logFilePtr (p : option string) (db : Database) : Database :=
  mkDatabase (data db) (writeAhead db) (logFile db) p (logFileSize db) (rotateSize db).
Definition set_logFileSize (n : Z) (db : Database) : Database :=
  mkDatabase (data db) (writeAhead db) (logFile db) (logFilePtr db) n (rotateSize db).

(** How a call ends: it returns (with an [error] or [nil]), or the process
    is stopped by [log.Fatal] / [sugar.Fatal]. *)
Inductive outcome :=
  | Returned (err : option error)
  | Fatal (err : error).

Definition NewDatabase (logFile : string) (rotateSize : Z) : Database :=
  {| data := ∅; writeAhead := []; logFile := logFile; logFilePtr := None;
     logFileSize := 0; rotateSize := rotateSize |}.

Definition OpenLogFile (db : Database) (w : World) : option error * Database * World :=
  match sys_open_append (logFile db) w with
  | (Some err, w) => (Some err, db, w)
  | (None, w) => (None, set_logFilePtr (Some (logFile db)) db, w)
  end.

(** A [Close] that fails returns the error and leaves [db.logFilePtr] as
    it is.  (In Go the file object cannot be written to any more after
    such a [Close]; the descriptor here is only a path and does not record
    that, and nothing below writes through a descriptor after a failed
    [Close].) *)
Definition CloseLogFile (db : Database) (w : World) : option error * Database * World :=
  match logFilePtr db with
  | None => (None, db, w)
  | Some _ =>
      match sys_close w with
      | (Some err, w) => (Some err, db, w)
      | (None, w) => (None, set_logFilePtr None db, w)
      end
  end.

(** [rotateLogFile] has no result; [Some err] is the [log.Fatal(err)] exit. *)
Definition rotateLogFile (db : Database) (w : World) : option error * Database * World :=
  match CloseLogFile db w with
  | (Some _, db, w) => (None, db, w)                                 (* return *)
  | (None, db, w) =>
      let timestamp := Format (now w) in
      let rotatedFile := logFile db +:+ "_" +:+ timestamp in
      match sys_rename (logFile db) rotatedFile w with
      | (Some err, w) => (Some err, db, w)                           (* log.Fatal *)
      | (None, w) =>
          match OpenLogFile db w with
          | (Some err, db, w) => (Some err, db, w)                   (* log.Fatal *)
          | (None, db, w) => (None, set_logFileSize 0 db, w)
          end
      end
  end.

Definition Get (db : Database) (key : string) : option (list byte) := data db !! key.

Definition Delete (db : Database) (key : string) : Database :=
  set_data (delete key (data db)) db.

Section Store.
Context `{ProtoCodec}.

(** The entry [Set] decides on, or [None] when the stored value is the
    same and [Set] returns at once. *)
Definition Set_entry (db : Database) (key : string) (value : list byte)
    : option LogEntry :=
  match data db !! key with
  | Some val =>
      if bool_decide (val = value) then None
      else Some {| Op := UPDATE; Key := key; Value := value |}
  | None => Some {| Op := INSERT; Key := key; Value := value |}
  end.

(** The entry that [Set] builds when it does not return at once: UPDATE
    for a key that is present, INSERT for one that is absent. *)
Definition entry_for (db : Database) (key : string) (value : list byte) : LogEntry :=
  {| Op := match data db !! key with Some _ => UPDATE | None => INSERT end;
     Key := key; Value := value |}.

(** The [if db.logFilePtr != nil] block of [Set], entered with the
    descriptor [f]. *)
Definition Set_log (f : string) (logEntry : LogEntry) (db : Database) (w : World)
    : outcome * Database * World :=
  match Marshal logEntry with
  | None => (Returned (Some ErrProto), db, w)
  | Some logData =>
      let buf := PutUint32 (uint32 (Z.of_nat (length logData))) in
      match sys_write f buf w with
      | (Some err, w) => (Returned (Some err), db, w)
      | (None, w) =>
          match sys_write f logData w with
          | (Some err, w) => (Returned (Some err), db, w)
          | (None, w) =>
              let db :=
                set_logFileSize
                  (int64 (logFileSize db + int64 (Z.of_nat (length logData) + 4))) db in
              if bool_decide (rotateSize db ≤ logFileSize db) then
                match rotateLogFile db w with
                | (Some err, db, w) => (Fatal err, db, w)
                | (None, db, w) => (Returned None, db, w)
                end
              else (Returned None, db, w)
          end
      end
  end.

(** [(db *Database).Set(key, value)]; [Set] is a reserved word here. *)
Definition Set_ (db : Database) (w : World) (key : string) (value : list byte)
    : outcome * Database * World :=
  match Set_entry db key value with
  | None => (Returned None, db, w)
  | Some logEntry =>
      let db := set_writeAhead (writeAhead db ++ [logEntry]) db in
      let db := set_data (<[key := value]> (data db)) db in
      match logFilePtr db with
      | None => (Returned None, db, w)
      | Some f => Set_log f logEntry db w
      end
  end.

(** [os.Open] for reading fails on a path without a file; reading a
    regular file is modelled as failing with [io.EOF] only.  [None] when
    the loop runs out of fuel. *)
Definition ReplayWriteAheadLog (db : Database) (w : World)
    : option (option error * Database) :=
  match files w !! logFile db with
  | None => Some (Some ErrNotExist, db)
  | Some file =>
      '(err, m) ← replay file (data db);
      Some (err, set_data m db)
  end.

(** One tick of the flusher goroutine of [main], under [logFileLock]. *)
Fixpoint flush_marshal (entries : list LogEntry) (logData : list byte)
    : option (list byte) :=
  match entries with
  | [] => Some logData
  | entry :: entries =>
      match Marshal entry with
      | None => None                                        (* sugar.Fatal *)
      | Some entryData => flush_marshal entries (logData ++ entryData)
      end
  end.

Definition flush_tick (db : Database) (w : World) : outcome * World :=
  match flush_marshal (writeAhead db) [] with
  | None => (Fatal ErrProto, w)
  | Some logData =>
      match logFilePtr db with
      | None => (Fatal ErrInvalid, w)
      | Some f =>
          match sys_write f logData w with
          | (Some err, w) => (Fatal err, w)
          | (None, w) =>
              match sys_sync w with
              | (Some err, w) => (Fatal err, w)
              | (None, w) => (Returned None, w)
              end
          end
      end
  end.

End Store.

(* ===================================================================== *)
(** * A concrete codec                                                   *)
(* ===================================================================== *)

Module FixedOrder.

(** Modelled from the spec: [contract/log.proto] and the code generated
    from it are missing, so the byte layout of a marshalled [LogEntry] is
    not known.  The specification leaves the layout open ("a compact
    tagged-field or fixed-order binary format is sufficient ... but must
    round-trip") and lets decoding fail on bytes that are truncated or
    carry an invalid operation.  This is such a fixed-order layout: one
    byte for the operation, the length of the key as four little-endian
    bytes, the key, and the value as the rest.  It serves to run the
    program on concrete inputs; the general theorems hold for any codec. *)
Definition encode (e : LogEntry) : option (list byte) :=
  let key := list_byte_of_string (Key e) in
  if bool_decide (0 ≤ Op e ≤ 2 ∧ Z.of_nat (length key) < 2 ^ 32) then
    Some (byte_of_Z (Op e) :: PutUint32 (Z.of_nat (length key)) ++ key ++ Value e)
  else None.

Definition decode (b : list byte) : option LogEntry :=
  match b with
  | [] => None
  | op :: rest =>
      let klen := Z.to_nat (Uint32 rest) in
      if bool_decide (Z_of_byte op ≤ 2 ∧ (4 + klen ≤ length rest)%nat) then
        Some {| Op := Z_of_byte op;
                Key := string_of_list_byte (take klen (drop 4 rest));
                Value := drop (4 + klen) rest |}
      else None
  end.

#[global] Instance codec : ProtoCodec := {| Marshal := encode; Unmarshal := decode |}.

End FixedOrder.

(** Concrete inputs: the driver's file name, keys and values. *)
Module Demo.

Definition bytes (s : string) : list byte := list_byte_of_string s.

Definition clock : Time :=
  {| year := 2023; month := 6; day := 5; hour := 7; minute := 8; second := 9;
     nanosecond := 0 |}.

(** An empty disk on which no system call fails. *)
Definition quiet_world : World := {| files := ∅; faults := []; now := clock |}.

Definition insert_age : LogEntry :=
  {| Op := INSERT; Key := "age"; Value := bytes "30" |}.
Definition delete_age : LogEntry :=
  {| Op := DELETE; Key := "age"; Value := [] |}.

(** The payload of an entry under the concrete codec. *)
Definition payload (e : LogEntry) : list byte := default [] (FixedOrder.encode e).

(** [NewDatabase("database.bin", rotateSize)] followed by [OpenLogFile]. *)
Definition opened (rotateSize : Z) (w : World) : Database * World :=
  let '(_, db, w) := OpenLogFile (NewDatabase "database.bin" rotateSize) w in (db, w).

(** The state that [opened] reaches on the empty disk: the database with
    its descriptor on the freshly created empty file. *)
Definition open_db (rotateSize : Z) : Database :=
  {| data := ∅; writeAhead := []; logFile := "database.bin";
     logFilePtr := Some "database.bin"; logFileSize := 0; rotateSize := rotateSize |}.

Definition open_world : World :=
  {| files := {["database.bin" := []]}; faults := []; now := clock |}.

(** The same disk when the next system call is going to fail. *)
Definition failing_world : World :=
  {| files := {["database.bin" := []]}; faults := [true]; now := clock |}.


End Demo.

(* ===================================================================== *)
(** * The log file format and the vocabulary of the specification        *)
(* ===================================================================== *)

(** One record as [Set] writes it: [buf], the length of the payload as
    [uint32] in four little-endian bytes, and then the payload. *)
Definition frame (payload : list byte) : list byte :=
  PutUint32 (uint32 (Z.of_nat (length payload))) ++ payload.

(** A file that consists of complete records. *)
Definition framed (payloads : list (list byte)) : list byte :=
  concat (frame <$> payloads).

(** The table after [db.data[entry.Key] = entry.Value] for each entry in
    turn. *)
Definition apply_entries (entries : list LogEntry)
    (data : gmap string (list byte)) : gmap string (list byte) :=
  foldl (λ m entry, <[Key entry := Value entry]> m) data entries.

(** A torn tail: fewer than four bytes, or a complete length prefix that
    announces more payload bytes than the file still has. *)
Definition truncated_tail (tail : list byte) : Prop :=
  (length tail < 4)%nat ∨
  (4 ≤ length tail ∧ length tail - 4 < Z.to_nat (Uint32 tail))%nat.

(** A payload that decodes to [entry], of a length that fits the prefix. *)
Definition decodes `{ProtoCodec} (payload : list byte) (entry : LogEntry) : Prop :=
  Unmarshal payload = Some entry ∧ Z.of_nat (length payload) < 2 ^ 32.

(** The specification's reading of how replay applies one entry (section
    4.3: "INSERT/UPDATE -> set key=value; DELETE -> remove key"), to be
    compared with what the loop does. *)
Definition spec_apply_entry (m : gmap string (list byte)) (entry : LogEntry)
    : gmap string (list byte) :=
  if bool_decide (Op entry = DELETE) then delete (Key entry) m
  else <[Key entry := Value entry]> m.


(** The log is open on its own path, holds complete records only, and
    replaying it yields exactly the table. *)
Definition log_exact `{ProtoCodec} (db : Database) (w : World) : Prop :=
  logFilePtr db = Some (logFile db) ∧
  ∃ payloads entries,
    files w !! logFile db = Some (framed payloads) ∧
    Forall2 decodes payloads entries ∧
    apply_entries entries ∅ = data db.

(** The size counter is the length of the active file. *)
Definition counter_exact (db : Database) (w : World) : Prop :=
  logFilePtr db = Some (logFile db) ∧
  ∃ file, files w !! logFile db = Some file ∧ logFileSize db = Z.of_nat (length file).

(** The last entry of a log that names the key, if any. *)
Definition latest (k : string) (entries : list LogEntry) : option LogEntry :=
  last (filter (λ e, Key e = k) entries).

(** The world at a later reading of the clock. *)
Definition with_now (t : Time) (w : World) : World :=
  {| files := files w; faults := faults w; now := t |}.

(** The world with what is left of the oracle. *)
Definition with_faults (fs : list bool) (w : World) : World :=
  {| files := files w; faults := fs; now := now w |}.

(** The name that [rotateLogFile] gives the file it moves away. *)
Definition rotated_name (db : Database) (w : World) : string :=
  logFile db +:+ "_" +:+ Format (now w).

(* ===================================================================== *)
(** * Bytes: the length prefix round-trips                               *)
(* ===================================================================== *)

Lemma Z_of_byte_range (b : byte) : 0 ≤ Z_of_byte b < 256.
Proof.
  unfold Z_of_byte. pose proof (Byte.to_N_bounded b). lia.
Qed.

Lemma Z_of_byte_of_Z (z : Z) : Z_of_byte (byte_of_Z z) = z mod 256.
Proof.
  unfold Z_of_byte, byte_of_Z.
  assert (Hr : 0 ≤ z mod 256 < 256) by (apply Z.mod_pos_bound; lia).
  destruct (Byte.of_N (Z.to_N (z mod 256))) as [b|] eqn:Hb.
  - apply Byte.to_of_N in Hb. simpl. rewrite Hb. lia.
  - apply Byte.of_N_None_iff in Hb. lia.
Qed.

Lemma byte_of_Z_of_byte (b : byte) : byte_of_Z (Z_of_byte b) = b.
Proof.
  unfold byte_of_Z. pose proof (Z_of_byte_range b) as Hr.
  rewrite Z.mod_small by lia. unfold Z_of_byte.
  rewrite N2Z.id, Byte.of_to_N. reflexivity.
Qed.

Lemma length_PutUint32 (v : Z) : length (PutUint32 v) = 4%nat.
Proof. reflexivity. Qed.

Lemma Uint32_PutUint32_mod (v : Z) (rest : list byte) :
  Uint32 (PutUint32 v ++ rest) = v mod 2 ^ 32.
Proof.
  unfold PutUint32, Uint32. cbn [app]. rewrite !Z_of_byte_of_Z.
  change 256 with (2 ^ 8).
  apply Z.bits_inj'. intros n Hn.
  rewrite !Z.lor_spec, !Z.shiftl_spec by lia.
  rewrite (Z.testbit_mod_pow2 v 32 n) by lia.
  destruct (Z.ltb_spec n 8); [|destruct (Z.ltb_spec n 16); [|destruct (Z.ltb_spec n 24)]].
  - rewrite (Z.testbit_neg_r _ (n - 8)), (Z.testbit_neg_r _ (n - 16)),
      (Z.testbit_neg_r _ (n - 24)) by lia.
    rewrite Z.testbit_mod_pow2 by lia.
    destruct (Z.ltb_spec n 8), (Z.ltb_spec n 32); try lia.
    rewrite !orb_false_r. reflexivity.
  - rewrite (Z.testbit_neg_r _ (n - 16)), (Z.testbit_neg_r _ (n - 24)) by lia.
    rewrite !Z.testbit_mod_pow2, Z.shiftr_spec by lia.
    destruct (Z.ltb_spec n 8), (Z.ltb_spec (n - 8) 8), (Z.ltb_spec n 32); try lia.
    rewrite !orb_false_r. cbn. f_equal; lia.
  - rewrite (Z.testbit_neg_r _ (n - 24)) by lia.
    rewrite !Z.testbit_mod_pow2, !Z.shiftr_spec by lia.
    destruct (Z.ltb_spec n 8), (Z.ltb_spec (n - 8) 8), (Z.ltb_spec (n - 16) 8),
      (Z.ltb_spec n 32); try lia.
    rewrite !orb_false_r. cbn. f_equal; lia.
  - rewrite !Z.testbit_mod_pow2, !Z.shiftr_spec by lia.
    destruct (Z.ltb_spec n 8), (Z.ltb_spec (n - 8) 8), (Z.ltb_spec (n - 16) 8),
      (Z.ltb_spec (n - 24) 8), (Z.ltb_spec n 32); try lia; cbn;
      rewrite ?orb_false_r; try (f_equal; lia); reflexivity.
Qed.

Lemma Uint32_PutUint32 (v : Z) (rest : list byte) :
  0 ≤ v < 2 ^ 32 → Uint32 (PutUint32 v ++ rest) = v.
Proof. intros Hv. rewrite Uint32_PutUint32_mod. apply Z.mod_small. exact Hv. Qed.

(* ===================================================================== *)
(** * Reading and replaying                                              *)
(* ===================================================================== *)

Lemma ReadAt_app_skip (pre rest : list byte) (n off : nat) :
  ReadAt (pre ++ rest) n (length pre + off) = ReadAt rest n off.
Proof.
  unfold ReadAt. destruct (decide (n = 0%nat)); [reflexivity|].
  rewrite length_app, drop_app_add'; [|reflexivity].
  repeat case_decide; try reflexivity; lia.
Qed.

Lemma ReadAt_prefix (buf rest : list byte) :
  ReadAt (buf ++ rest) (length buf) 0 = Some buf.
Proof.
  unfold ReadAt. case_decide as Hn.
  - destruct buf; [reflexivity | discriminate].
  - rewrite length_app. case_decide; [|lia].
    rewrite drop_0, take_app_length. reflexivity.
Qed.

Lemma ReadAt_eof (file : list byte) (n off : nat) :
  (n ≠ 0 → length file < off + n)%nat → n ≠ 0%nat → ReadAt file n off = None.
Proof.
  intros Hlt Hn. unfold ReadAt. rewrite decide_False by exact Hn.
  rewrite decide_False; [reflexivity|]. specialize (Hlt Hn). lia.
Qed.

Lemma length_frame (p : list byte) : length (frame p) = (4 + length p)%nat.
Proof. unfold frame. rewrite length_app. reflexivity. Qed.

Lemma framed_cons (p : list byte) (ps : list (list byte)) :
  framed (p :: ps) = frame p ++ framed ps.
Proof. reflexivity. Qed.

Lemma framed_app (ps qs : list (list byte)) :
  framed (ps ++ qs) = framed ps ++ framed qs.
Proof. unfold framed. rewrite fmap_app, concat_app. reflexivity. Qed.

Lemma framed_snoc (ps : list (list byte)) (p : list byte) :
  framed (ps ++ [p]) = framed ps ++ frame p.
Proof.
  rewrite framed_app. f_equal. unfold framed. cbn [fmap list_fmap concat].
  apply app_nil_r.
Qed.

Lemma length_framed_ge (ps : list (list byte)) :
  (4 * length ps ≤ length (framed ps))%nat.
Proof.
  induction ps as [|p ps IH]; [simpl; lia|].
  rewrite framed_cons, length_app, length_frame. simpl length. lia.
Qed.

Lemma apply_entries_snoc (es : list LogEntry) (e : LogEntry) m :
  apply_entries (es ++ [e]) m = <[Key e := Value e]> (apply_entries es m).
Proof. unfold apply_entries. rewrite foldl_app. reflexivity. Qed.

Section ReplayFacts.
Context `{ProtoCodec}.

Lemma replay_loop_skip (pre rest : list byte) fuel off d :
  replay_loop fuel (pre ++ rest) (length pre + off) d = replay_loop fuel rest off d.
Proof.
  revert off d. induction fuel as [|fuel IH]; intros off d; [reflexivity|].
  cbn [replay_loop]. rewrite ReadAt_app_skip.
  destruct (ReadAt rest 4 off) as [buf|]; [|reflexivity].
  replace (length pre + off + 4)%nat with (length pre + (off + 4))%nat by lia.
  rewrite ReadAt_app_skip.
  destruct (ReadAt rest _ (off + 4)) as [item|]; [|reflexivity].
  destruct (Unmarshal item) as [entry|]; [|reflexivity].
  rewrite <- IH. f_equal. lia.
Qed.

(** More fuel never changes a result. *)
Lemma replay_loop_fuel_mono fuel fuel' file off d r :
  replay_loop fuel file off d = Some r → (fuel ≤ fuel')%nat →
  replay_loop fuel' file off d = Some r.
Proof.
  revert fuel' off d. induction fuel as [|fuel IH]; intros fuel' off d Hr Hle;
    [discriminate|].
  destruct fuel' as [|fuel']; [lia|]. cbn [replay_loop] in *.
  destruct (ReadAt file 4 off) as [buf|]; [|exact Hr].
  destruct (ReadAt file _ (off + 4)) as [item|]; [|exact Hr].
  destruct (Unmarshal item) as [entry|]; [|exact Hr].
  apply IH; [exact Hr | lia].
Qed.

(** The loop terminates: fuel beyond the bytes that remain is never used
    up. *)
Lemma replay_loop_enough fuel file off d :
  (length file - off < fuel)%nat → is_Some (replay_loop fuel file off d).
Proof.
  revert off d. induction fuel as [|fuel IH]; intros off d Hlt; [lia|].
  cbn [replay_loop]. unfold ReadAt at 1. rewrite decide_False by lia.
  case_decide as H4; [|eauto].
  destruct (ReadAt file _ (off + 4)) as [item|]; [|eauto].
  destruct (Unmarshal item) as [entry|]; [|eauto].
  apply IH. lia.
Qed.

Lemma replay_total file d : is_Some (replay file d).
Proof. apply replay_loop_enough. lia. Qed.

Lemma replay_eq_loop fuel file d r :
  replay_loop fuel file 0 d = Some r → replay file d = Some r.
Proof.
  intros Hr. destruct (replay_total file d) as [r' Hr'].
  destruct (Nat.le_ge_cases fuel (S (length file))) as [Hle|Hle].
  - exact (replay_loop_fuel_mono _ _ _ _ _ _ Hr Hle).
  - unfold replay in *. rewrite Hr'.
    rewrite (replay_loop_fuel_mono _ _ _ _ _ _ Hr' Hle) in Hr. exact Hr.
Qed.

(** One iteration on a complete record at the head of the file. *)
Lemma replay_loop_frame fuel (p rest : list byte) d :
  Z.of_nat (length p) < 2 ^ 32 →
  replay_loop (S fuel) (frame p ++ rest) 0 d =
    match Unmarshal p with
    | None => Some (Some ErrProto, d)
    | Some entry => replay_loop fuel rest 0 (<[Key entry := Value entry]> d)
    end.
Proof.
  intros Hp. cbn [replay_loop]. unfold frame. rewrite <- app_assoc.
  set (hdr := PutUint32 (uint32 (Z.of_nat (length p)))).
  pose proof (ReadAt_prefix hdr (p ++ rest)) as R4.
  change (length hdr) with 4%nat in R4. rewrite R4. clear R4.
  assert (Hsz : Z.to_nat (Uint32 hdr) = length p).
  { subst hdr. rewrite <- (app_nil_r (PutUint32 _)), Uint32_PutUint32_mod.
    unfold uint32. rewrite Z.mod_mod by lia. rewrite Z.mod_small by lia. lia. }
  rewrite Hsz.
  change (0 + 4)%nat with (length hdr + 0)%nat.
  rewrite ReadAt_app_skip, ReadAt_prefix.
  destruct (Unmarshal p) as [entry|]; [|reflexivity].
  rewrite app_assoc.
  replace (length hdr + 0 + length p)%nat with (length (hdr ++ p) + 0)%nat
    by (rewrite length_app; lia).
  apply replay_loop_skip.
Qed.

(** Replaying complete, decodable records applies their entries in order
    and goes on with the rest of the file. *)
Lemma replay_loop_framed ps es rest fuel d :
  Forall2 decodes ps es →
  replay_loop (length ps + fuel) (framed ps ++ rest) 0 d =
    replay_loop fuel rest 0 (apply_entries es d).
Proof.
  intros Hdec. revert d. induction Hdec as [|p e ps es [Hp Hlen] _ IH]; intros d;
    [reflexivity|].
  rewrite framed_cons, <- app_assoc. cbn [length Nat.add].
  rewrite replay_loop_frame by exact Hlen. rewrite Hp. apply IH.
Qed.

Lemma replay_framed ps es rest d :
  Forall2 decodes ps es →
  replay (framed ps ++ rest) d = replay rest (apply_entries es d).
Proof.
  intros Hdec. destruct (replay_total rest (apply_entries es d)) as [r Hr].
  rewrite Hr. apply (replay_eq_loop (length ps + S (length rest))).
  rewrite (replay_loop_framed _ _ _ _ _ Hdec). exact Hr.
Qed.

Lemma replay_truncated tail d :
  truncated_tail tail → replay tail d = Some (None, d).
Proof.
  intros [Hshort|[H4 Hcut]]; unfold replay; cbn [replay_loop].
  - rewrite ReadAt_eof; [reflexivity | lia | lia].
  - unfold ReadAt at 1. rewrite decide_False by lia. rewrite decide_True by lia.
    rewrite drop_0.
    assert (Hu : Uint32 (take 4 tail) = Uint32 tail).
    { destruct tail as [|b0 [|b1 [|b2 [|b3 t]]]]; simpl in H4; try lia. reflexivity. }
    rewrite Hu. rewrite ReadAt_eof; [reflexivity | lia | lia].
Qed.

Lemma replay_nil d : replay [] d = Some (None, d).
Proof. reflexivity. Qed.

Lemma replay_framed_all ps es d :
  Forall2 decodes ps es →
  replay (framed ps) d = Some (None, apply_entries es d).
Proof.
  intros Hdec. rewrite <- (app_nil_r (framed ps)).
  rewrite (replay_framed _ _ _ _ Hdec). apply replay_nil.
Qed.

End ReplayFacts.

(* ===================================================================== *)
(** * The concrete codec round-trips                                     *)
(* ===================================================================== *)

Lemma FixedOrder_decode_encode (e : LogEntry) (b : list byte) :
  FixedOrder.encode e = Some b → FixedOrder.decode b = Some e.
Proof.
  unfold FixedOrder.encode. case_bool_decide as Hok; [|discriminate].
  destruct Hok as [Hop Hlen]. intros [= <-].
  set (key := list_byte_of_string (Key e)) in *.
  unfold FixedOrder.decode.
  assert (Hfold : ∀ v (l : list byte),
    byte_of_Z v :: byte_of_Z (Z.shiftr v 8) :: byte_of_Z (Z.shiftr v 16)
      :: byte_of_Z (Z.shiftr v 24) :: l = PutUint32 v ++ l) by reflexivity.
  rewrite !Hfold. clear Hfold.
  rewrite Uint32_PutUint32 by lia. rewrite Nat2Z.id.
  rewrite Z_of_byte_of_Z, Z.mod_small by lia.
  rewrite bool_decide_true.
  2:{ split; [lia|]. rewrite !length_app, length_PutUint32. lia. }
  change (drop 4 (PutUint32 (Z.of_nat (length key)) ++ key ++ Value e))
    with (key ++ Value e).
  rewrite take_app_length.
  replace (drop (4 + length key) (PutUint32 (Z.of_nat (length key)) ++ key ++ Value e))
    with (Value e).
  2:{ change (4 + length key)%nat with (S (S (S (S (length key))))).
      unfold PutUint32. cbn [app drop]. rewrite drop_app_length. reflexivity. }
  subst key. rewrite string_of_list_byte_of_string. destruct e; reflexivity.
Qed.

#[global] Instance FixedOrder_round_trip : @ProtoRoundTrip FixedOrder.codec.
Proof. constructor. exact FixedOrder_decode_encode. Qed.

(* ===================================================================== *)
(** * Replay: what is applied, where it stops, idempotence               *)
(* ===================================================================== *)

Lemma apply_entries_insert_absorb (es : list LogEntry) k v m :
  <[k := v]> (apply_entries es (<[k := v]> m)) = <[k := v]> (apply_entries es m).
Proof.
  revert m. induction es as [|e es IH]; intros m; cbn.
  - apply insert_insert_eq.
  - destruct (decide (Key e = k)) as [->|Hne].
    + rewrite insert_insert_eq. reflexivity.
    + rewrite (insert_insert_ne m) by congruence. apply IH.
Qed.

Lemma apply_entries_idemp (es : list LogEntry) m :
  apply_entries es (apply_entries es m) = apply_entries es m.
Proof.
  induction es as [|e es IH] using rev_ind; [reflexivity|].
  rewrite !apply_entries_snoc, apply_entries_insert_absorb, IH. reflexivity.
Qed.

(** Replay never removes a binding. *)
Lemma apply_entries_keeps (es : list LogEntry) m k :
  is_Some (m !! k) → is_Some (apply_entries es m !! k).
Proof.
  induction es as [|e es IH] using rev_ind; [auto|]. intros Hk.
  rewrite apply_entries_snoc.
  destruct (decide (Key e = k)) as [->|Hne].
  - rewrite lookup_insert_eq. eauto.
  - rewrite lookup_insert_ne by exact Hne. auto.
Qed.

Section ReplayClaims.
Context `{ProtoCodec}.

(** The entries that a run of the loop applies do not depend on the table
    it starts from. *)
Lemma replay_loop_entries fuel file off d err d' :
  replay_loop fuel file off d = Some (err, d') →
  ∃ es, ∀ d2, replay_loop fuel file off d2 = Some (err, apply_entries es d2).
Proof.
  revert off d. induction fuel as [|fuel IH]; intros off d Hr; [discriminate|].
  cbn [replay_loop] in *.
  destruct (ReadAt file 4 off) as [buf|].
  2:{ injection Hr as <- <-. exists []. reflexivity. }
  destruct (ReadAt file _ (off + 4)) as [item|].
  2:{ injection Hr as <- <-. exists []. reflexivity. }
  destruct (Unmarshal item) as [entry|].
  2:{ injection Hr as <- <-. exists []. reflexivity. }
  destruct (IH _ _ Hr) as [es Hes]. exists (entry :: es). intros d2. apply Hes.
Qed.

(** Replay never removes a binding, on any file. *)
Lemma replay_keeps file d err m k :
  replay file d = Some (err, m) → is_Some (d !! k) → is_Some (m !! k).
Proof.
  intros Hr Hk. destruct (replay_loop_entries _ _ _ _ _ _ Hr) as [es Hes].
  pose proof (Hes d) as Hd. unfold replay in Hr. rewrite Hr in Hd.
  injection Hd as ->. apply apply_entries_keeps. exact Hk.
Qed.

(** The whole function: it returns on every disk, and on an existing log
    file its result is that of the loop. *)
Lemma ReplayWriteAheadLog_total db w : is_Some (ReplayWriteAheadLog db w).
Proof.
  unfold ReplayWriteAheadLog. destruct (files w !! logFile db) as [file|]; [|eauto].
  destruct (replay_total file (data db)) as [[err m] ->]. cbn. eauto.
Qed.

(** C1 (as amended).  Every entry that replay decodes is applied by
    [data[Key] = Value], whatever its operation: after complete records
    that decode to [es], a record that decodes to [e] makes the loop go on
    with the rest of the file from the table in which [Key e] is bound to
    [Value e].  The operation of [e] is not consulted, and no entry removes
    a key: when replay returns, [Key e] is bound. *)
Theorem replay_applies_entry_as_set ps es p e rest d :
  Forall2 decodes ps es → decodes p e →
  replay (framed ps ++ frame p ++ rest) d =
    replay rest (<[Key e := Value e]> (apply_entries es d)) ∧
  ∃ err m, replay (framed ps ++ frame p ++ rest) d = Some (err, m) ∧
           is_Some (m !! Key e).
Proof.
  intros Hps Hp.
  assert (Hall : Forall2 decodes (ps ++ [p]) (es ++ [e])).
  { apply Forall2_app; [exact Hps | constructor; [exact Hp | constructor]]. }
  pose proof (replay_framed (ps ++ [p]) (es ++ [e]) rest d Hall) as Hr.
  rewrite framed_snoc, apply_entries_snoc, <- app_assoc in Hr.
  split; [exact Hr|].
  rewrite Hr.
  destruct (replay_total rest (<[Key e := Value e]> (apply_entries es d)))
    as [[err m] Hm].
  exists err, m. split; [exact Hm|].
  apply (replay_keeps _ _ _ _ _ Hm). rewrite lookup_insert_eq. eauto.
Qed.

(** C5.  A file of complete, decodable records followed by a torn tail (a
    partial length prefix, or a prefix whose payload is cut short) replays
    without an error to the table that the complete records alone give. *)
Theorem replay_tolerates_truncated_tail ps es tail d :
  Forall2 decodes ps es → truncated_tail tail →
  replay (framed ps ++ tail) d = Some (None, apply_entries es d) ∧
  replay (framed ps) d = Some (None, apply_entries es d).
Proof.
  intros Hps Htail. split.
  - rewrite (replay_framed _ _ _ _ Hps). apply replay_truncated. exact Htail.
  - apply replay_framed_all. exact Hps.
Qed.

(** C6.  When a record is complete but its payload does not decode, replay
    returns the error instead of going on to the records behind it, and
    the table holds what the records before it gave. *)
Theorem replay_rejects_corrupt_payload ps es bad rest d :
  Forall2 decodes ps es →
  Unmarshal bad = None → Z.of_nat (length bad) < 2 ^ 32 →
  replay (framed ps ++ frame bad ++ rest) d = Some (Some ErrProto, apply_entries es d) ∧
  replay (framed ps) d = Some (None, apply_entries es d).
Proof.
  intros Hps Hbad Hlen. split; [|apply replay_framed_all; exact Hps].
  rewrite (replay_framed _ _ _ _ Hps).
  apply (replay_eq_loop 1). rewrite replay_loop_frame by exact Hlen.
  rewrite Hbad. reflexivity.
Qed.

(** C8.  Replay is idempotent: replaying a file returns, and replaying it
    again into the table it produced returns the same error status and
    leaves that table as it is.  This holds for every file, well-formed
    or not. *)
Theorem replay_idempotent (file : list byte) (d : gmap string (list byte)) :
  ∃ err d', replay file d = Some (err, d') ∧ replay file d' = Some (err, d').
Proof.
  destruct (replay_total file d) as [[err d'] Hr]. exists err, d'.
  split; [exact Hr|].
  destruct (replay_loop_entries _ _ _ _ _ _ Hr) as [es Hes].
  pose proof (Hes d) as Hd. unfold replay in Hr. rewrite Hr in Hd.
  injection Hd as ->. unfold replay. rewrite Hes, apply_entries_idemp. reflexivity.
Qed.

End ReplayClaims.

(** ** Replay on concrete files *)

Local Ltac concrete_decodes :=
  repeat (constructor; [split; vm_compute; reflexivity|]); constructor.

(** C1, counterexample.  A log of an INSERT of "age" followed by a DELETE
    of "age" replays without error to a table in which "age" is still
    bound (to the empty value of the DELETE entry), whereas applying the
    entries as section 4.3 of the specification has it, with DELETE
    removing the key, leaves no binding: the two tables differ. *)
Lemma replay_delete_entry_keeps_key :
  let payloads := [Demo.payload Demo.insert_age; Demo.payload Demo.delete_age] in
  let entries := [Demo.insert_age; Demo.delete_age] in
  Forall2 (@decodes FixedOrder.codec) payloads entries ∧
  @replay FixedOrder.codec (framed payloads) ∅ = Some (None, {["age" := []]}) ∧
  ({["age" := []]} : gmap string (list byte)) !! "age" = Some [] ∧
  foldl spec_apply_entry ∅ entries !! "age" = None ∧
  @replay FixedOrder.codec (framed payloads) ∅
    ≠ Some (None, foldl spec_apply_entry ∅ entries).
Proof.
  cbv zeta. split; [concrete_decodes|].
  split; [vm_compute; reflexivity|].
  split; [vm_compute; reflexivity|].
  split; [vm_compute; reflexivity|].
  intros Heq. apply (f_equal (λ r, (λ p, p.2 !! "age") <$> r)) in Heq.
  vm_compute in Heq. discriminate.
Qed.

Lemma replay_applies_entry_as_set_witness :
  Forall2 (@decodes FixedOrder.codec) [Demo.payload Demo.insert_age] [Demo.insert_age] ∧
  @decodes FixedOrder.codec (Demo.payload Demo.delete_age) Demo.delete_age ∧
  @replay FixedOrder.codec
    (framed [Demo.payload Demo.insert_age] ++ frame (Demo.payload Demo.delete_age) ++ []) ∅ =
  @replay FixedOrder.codec []
    (<[Key Demo.delete_age := Value Demo.delete_age]> (apply_entries [Demo.insert_age] ∅)) ∧
  ∃ err m,
    @replay FixedOrder.codec
      (framed [Demo.payload Demo.insert_age] ++ frame (Demo.payload Demo.delete_age) ++ []) ∅
      = Some (err, m) ∧
    is_Some (m !! Key Demo.delete_age).
Proof.
  split; [concrete_decodes|]. split; [split; vm_compute; reflexivity|].
  apply (@replay_applies_entry_as_set FixedOrder.codec); [concrete_decodes|].
  split; vm_compute; reflexivity.
Defined.

Lemma replay_tolerates_truncated_tail_witness :
  Forall2 (@decodes FixedOrder.codec) [Demo.payload Demo.insert_age] [Demo.insert_age] ∧
  truncated_tail [x07; x00; x00; x00; x00; x03] ∧
  @replay FixedOrder.codec
    (framed [Demo.payload Demo.insert_age] ++ [x07; x00; x00; x00; x00; x03]) ∅ =
    Some (None, apply_entries [Demo.insert_age] ∅) ∧
  @replay FixedOrder.codec (framed [Demo.payload Demo.insert_age]) ∅ =
    Some (None, apply_entries [Demo.insert_age] ∅).
Proof.
  split; [concrete_decodes|].
  split; [right; vm_compute; split; lia|].
  apply (@replay_tolerates_truncated_tail FixedOrder.codec); [concrete_decodes|].
  right; vm_compute; split; lia.
Defined.

Lemma replay_rejects_corrupt_payload_witness :
  Forall2 (@decodes FixedOrder.codec) [Demo.payload Demo.insert_age] [Demo.insert_age] ∧
  @Unmarshal FixedOrder.codec [x09; x00] = None ∧
  Z.of_nat (length [x09; x00]) < 2 ^ 32 ∧
  @replay FixedOrder.codec
    (framed [Demo.payload Demo.insert_age] ++ frame [x09; x00]
       ++ frame (Demo.payload Demo.delete_age)) ∅ =
    Some (Some ErrProto, apply_entries [Demo.insert_age] ∅) ∧
  @replay FixedOrder.codec (framed [Demo.payload Demo.insert_age]) ∅ =
    Some (None, apply_entries [Demo.insert_age] ∅).
Proof.
  split; [concrete_decodes|].
  split; [vm_compute; reflexivity|]. split; [vm_compute; reflexivity|].
  apply (@replay_rejects_corrupt_payload FixedOrder.codec);
    [concrete_decodes | vm_compute; reflexivity | vm_compute; reflexivity].
Defined.

(* ===================================================================== *)
(** * System calls when the oracle reports no failure                    *)
(* ===================================================================== *)

Lemma next_fault_quiet (w : World) : faults w = [] → next_fault w = (false, w).
Proof. unfold next_fault. intros ->. reflexivity. Qed.

Lemma sys_write_quiet path b (w : World) :
  faults w = [] →
  sys_write path b w =
    (None, with_files (<[path := default [] (files w !! path) ++ b]> (files w)) w).
Proof. intros Hq. unfold sys_write. rewrite next_fault_quiet by exact Hq. reflexivity. Qed.

Lemma sys_close_quiet (w : World) : faults w = [] → sys_close w = (None, w).
Proof. intros Hq. unfold sys_close. rewrite next_fault_quiet by exact Hq. reflexivity. Qed.

Lemma sys_sync_quiet (w : World) : faults w = [] → sys_sync w = (None, w).
Proof. intros Hq. unfold sys_sync. rewrite next_fault_quiet by exact Hq. reflexivity. Qed.

Lemma sys_open_append_quiet path (w : World) :
  faults w = [] →
  sys_open_append path w =
    (None, with_files (<[path := default [] (files w !! path)]> (files w)) w).
Proof. intros Hq. unfold sys_open_append. rewrite next_fault_quiet by exact Hq. reflexivity. Qed.

Lemma sys_rename_quiet oldpath newpath c (w : World) :
  faults w = [] → files w !! oldpath = Some c →
  sys_rename oldpath newpath w =
    (None, with_files (<[newpath := c]> (delete oldpath (files w))) w).
Proof.
  intros Hq Hc. unfold sys_rename. rewrite next_fault_quiet by exact Hq.
  rewrite Hc. reflexivity.
Qed.

Lemma append_nonempty_neq (s t : string) : t ≠ "" → s +:+ t ≠ s.
Proof.
  intros Ht. induction s as [|a s IH]; cbn.
  - exact Ht.
  - intros [= Heq]. exact (IH Heq).
Qed.

(** The name of a rotated file is never the name of the log itself. *)
Lemma rotated_name_fresh (path stamp : string) : path +:+ "_" +:+ stamp ≠ path.
Proof. apply append_nonempty_neq. discriminate. Qed.

(** [Format] has second precision: the nanoseconds do not show. *)
Lemma Format_second_precision (t : Time) (ns : nat) :
  Format {| year := year t; month := month t; day := day t; hour := hour t;
            minute := minute t; second := second t; nanosecond := ns |} = Format t.
Proof. reflexivity. Qed.

(* ===================================================================== *)
(** * Rotation and the file part of [Set]                                *)
(* ===================================================================== *)

(** The state that a rotation without failures leaves. *)
Lemma rotateLogFile_quiet (db : Database) (w : World) f c :
  faults w = [] → logFilePtr db = Some f → files w !! logFile db = Some c →
  rotateLogFile db w =
    (None,
     set_logFileSize 0 (set_logFilePtr (Some (logFile db)) db),
     with_files
       (<[logFile db := []]>
          (<[logFile db +:+ "_" +:+ Format (now w) := c]> (delete (logFile db) (files w))))
       w).
Proof.
  intros Hq Hf Hc. unfold rotateLogFile, CloseLogFile. rewrite Hf.
  rewrite sys_close_quiet by exact Hq. cbn [logFile set_logFilePtr].
  rewrite (sys_rename_quiet _ _ c) by assumption.
  unfold OpenLogFile. cbn [logFile set_logFilePtr].
  rewrite sys_open_append_quiet by exact Hq. cbn [files with_files].
  rewrite lookup_insert_ne by apply rotated_name_fresh.
  rewrite lookup_delete_eq. reflexivity.
Qed.

Section SetFacts.
Context `{ProtoCodec}.

(** Neither the file part of [Set] nor a rotation touches the table, the
    backlog, the path or the threshold. *)
Lemma CloseLogFile_memory db w r db' w' :
  CloseLogFile db w = (r, db', w') →
  data db' = data db ∧ writeAhead db' = writeAhead db ∧
  logFile db' = logFile db ∧ rotateSize db' = rotateSize db.
Proof.
  unfold CloseLogFile. destruct (logFilePtr db); [|intros [= <- <- <-]; done].
  destruct (sys_close w) as [[err|] w1]; intros [= <- <- <-]; done.
Qed.

Lemma OpenLogFile_memory db w r db' w' :
  OpenLogFile db w = (r, db', w') →
  data db' = data db ∧ writeAhead db' = writeAhead db ∧
  logFile db' = logFile db ∧ rotateSize db' = rotateSize db.
Proof.
  unfold OpenLogFile.
  destruct (sys_open_append (logFile db) w) as [[err|] w1]; intros [= <- <- <-]; done.
Qed.

Lemma rotateLogFile_memory db w r db' w' :
  rotateLogFile db w = (r, db', w') →
  data db' = data db ∧ writeAhead db' = writeAhead db ∧
  logFile db' = logFile db ∧ rotateSize db' = rotateSize db.
Proof.
  unfold rotateLogFile.
  destruct (CloseLogFile db w) as [[c db1] w1] eqn:Hc.
  apply CloseLogFile_memory in Hc. destruct Hc as (Hd & Hw & Hl & Hs).
  destruct c; [intros [= <- <- <-]; done|].
  destruct (sys_rename _ _ w1) as [[err|] w2]; [intros [= <- <- <-]; done|].
  destruct (OpenLogFile db1 w2) as [[o db2] w3] eqn:Ho.
  apply OpenLogFile_memory in Ho. destruct Ho as (Hd' & Hw' & Hl' & Hs').
  destruct o; intros [= <- <- <-]; cbn; repeat split; congruence.
Qed.

Lemma Set_log_memory f e db w r db' w' :
  Set_log f e db w = (r, db', w') →
  data db' = data db ∧ writeAhead db' = writeAhead db ∧
  logFile db' = logFile db ∧ rotateSize db' = rotateSize db.
Proof.
  unfold Set_log. intros Hr.
  destruct (Marshal e) as [b|]; [|injection Hr as <- <- <-; done].
  destruct (sys_write f _ w) as [[err|] w1]; [injection Hr as <- <- <-; done|].
  destruct (sys_write f b w1) as [[err|] w2]; [injection Hr as <- <- <-; done|].
  case_bool_decide; [|injection Hr as <- <- <-; done].
  destruct (rotateLogFile _ w2) as [[r' db2] w3] eqn:Hrot.
  apply rotateLogFile_memory in Hrot. cbn in Hrot.
  destruct r'; simplify_eq; exact Hrot.
Qed.

Lemma Set_memory db w k v r db' w' :
  Set_ db w k v = (r, db', w') →
  match Set_entry db k v with
  | None => (r, db', w') = (Returned None, db, w)
  | Some e =>
      data db' = <[k := v]> (data db) ∧ writeAhead db' = writeAhead db ++ [e]
  end ∧ logFile db' = logFile db ∧ rotateSize db' = rotateSize db.
Proof.
  unfold Set_. destruct (Set_entry db k v) as [e|]; [|intros [= <- <- <-]; done].
  cbn [logFilePtr set_data set_writeAhead].
  destruct (logFilePtr db) as [f|]; [|intros [= <- <- <-]; done].
  intros Hr. apply Set_log_memory in Hr. cbn in Hr.
  destruct Hr as (? & ? & ? & ?). repeat split; assumption.
Qed.

Lemma Set_entry_None db k v :
  Set_entry db k v = None ↔ data db !! k = Some v.
Proof.
  unfold Set_entry. destruct (data db !! k) as [old|]; [case_bool_decide|];
    split; intros; congruence.
Qed.

(** The file part of [Set] when no system call fails: the record is
    appended, the counter advances, and the threshold decides on a
    rotation. *)
Lemma Set_log_quiet f e b db w :
  faults w = [] → Marshal e = Some b →
  Set_log f e db w =
    let db1 :=
      set_logFileSize (int64 (logFileSize db + int64 (Z.of_nat (length b) + 4))) db in
    let w1 := with_files (<[f := default [] (files w !! f) ++ frame b]> (files w)) w in
    if bool_decide (rotateSize db ≤ logFileSize db1) then
      match rotateLogFile db1 w1 with
      | (Some err, db, w) => (Fatal err, db, w)
      | (None, db, w) => (Returned None, db, w)
      end
    else (Returned None, db1, w1).
Proof.
  intros Hq Hb. unfold Set_log. rewrite Hb.
  rewrite sys_write_quiet by exact Hq.
  rewrite sys_write_quiet by exact Hq.
  cbn [files with_files]. rewrite lookup_insert_eq. cbn [from_option]. unfold id.
  rewrite insert_insert_eq, <- app_assoc. reflexivity.
Qed.

End SetFacts.

(* ===================================================================== *)
(** * [Set]: insert, update, no-op                                       *)
(* ===================================================================== *)

Section SetClaims.
Context `{ProtoCodec}.

Lemma Set_entry_eq db k v :
  Set_entry db k v =
    if decide (data db !! k = Some v) then None else Some (entry_for db k v).
Proof.
  unfold Set_entry, entry_for. destruct (data db !! k) as [old|].
  - case_bool_decide; case_decide; congruence.
  - case_decide; congruence.
Qed.

(** A second [Set] of the value that the table already holds changes
    nothing at all. *)
Lemma Set_same_value db w k v :
  data db !! k = Some v → Set_ db w k v = (Returned None, db, w).
Proof.
  intros Hk. unfold Set_. rewrite (proj2 (Set_entry_None db k v) Hk). reflexivity.
Qed.

(** C3 (as amended).  [Set(k, v)] on an absent key puts one INSERT entry
    on the backlog and installs [v]; on a key with a different value it
    puts one UPDATE entry and installs [v]; on a key that holds [v] it
    returns [nil] with the database and the disk untouched.  When the log
    is open, nothing fails and no rotation is due, what reaches the file
    is exactly one framed record.  Hence two calls in a row leave [v] in
    the table and produce one entry when the key did not hold [v] before
    the first call and none when it did: the second call never adds one. *)
Theorem Set_insert_update_or_noop db w k v :
  ∃ r db1 w1, Set_ db w k v = (r, db1, w1) ∧
    (data db !! k = None →
       writeAhead db1 = writeAhead db ++ [ {| Op := INSERT; Key := k; Value := v |} ] ∧
       data db1 = <[k := v]> (data db)) ∧
    (∀ old, data db !! k = Some old → old ≠ v →
       writeAhead db1 = writeAhead db ++ [ {| Op := UPDATE; Key := k; Value := v |} ] ∧
       data db1 = <[k := v]> (data db)) ∧
    (data db !! k = Some v → r = Returned None ∧ db1 = db ∧ w1 = w) ∧
    (∀ f b, data db !! k ≠ Some v → logFilePtr db = Some f → faults w = [] →
       Marshal (entry_for db k v) = Some b →
       int64 (logFileSize db + int64 (Z.of_nat (length b) + 4)) < rotateSize db →
       r = Returned None ∧
       files w1 = <[f := default [] (files w !! f) ++ frame b]> (files w)) ∧
    Set_ db1 w1 k v = (Returned None, db1, w1) ∧
    data db1 !! k = Some v ∧
    writeAhead db1 =
      writeAhead db ++ (if decide (data db !! k = Some v) then [] else [entry_for db k v]).
Proof.
  destruct (Set_ db w k v) as [[r db1] w1] eqn:Hset. exists r, db1, w1.
  split; [reflexivity|].
  pose proof (Set_memory _ _ _ _ _ _ _ Hset) as [Hmem _].
  rewrite Set_entry_eq in Hmem.
  assert (Hk1 : data db1 !! k = Some v).
  { case_decide as Hk; [by simplify_eq|].
    destruct Hmem as [-> _]. apply lookup_insert_eq. }
  split; [|split; [|split; [|split; [|split; [|split]]]]].
  - intros Hnone. rewrite decide_False in Hmem by congruence.
    unfold entry_for in Hmem. rewrite Hnone in Hmem. destruct Hmem; split; assumption.
  - intros old Hold Hne. rewrite decide_False in Hmem by congruence.
    unfold entry_for in Hmem. rewrite Hold in Hmem. destruct Hmem; split; assumption.
  - intros Hsame. rewrite decide_True in Hmem by exact Hsame.
    injection Hmem as -> -> ->. done.
  - intros f b Hk Hf Hq Hb Hlow.
    unfold Set_ in Hset. rewrite Set_entry_eq, decide_False in Hset by exact Hk.
    cbn [logFilePtr set_data set_writeAhead] in Hset. rewrite Hf in Hset.
    rewrite (Set_log_quiet _ _ b) in Hset by assumption. cbv zeta in Hset.
    rewrite bool_decide_false in Hset by (cbn; lia).
    injection Hset as <- _ <-. done.
  - apply Set_same_value. exact Hk1.
  - exact Hk1.
  - case_decide; [|apply Hmem]. rewrite app_nil_r. congruence.
Qed.

(** C4 (as amended).  When one of the two writes of [Set] fails, the
    caller gets the error, but nothing is undone: the table already holds
    the new value and the backlog the new entry; only the size counter
    stays as it was. *)
Theorem Set_append_failure_keeps_mutation db w k v f b fs :
  logFilePtr db = Some f → data db !! k ≠ Some v →
  Marshal (entry_for db k v) = Some b →
  faults w = true :: fs ∨ faults w = false :: true :: fs →
  ∃ db' w', Set_ db w k v = (Returned (Some ErrIO), db', w') ∧
    data db' = <[k := v]> (data db) ∧
    writeAhead db' = writeAhead db ++ [entry_for db k v] ∧
    logFileSize db' = logFileSize db ∧ logFilePtr db' = logFilePtr db.
Proof.
  intros Hf Hk Hb Hfault. unfold Set_. rewrite Set_entry_eq, decide_False by exact Hk.
  cbn [logFilePtr set_data set_writeAhead]. rewrite Hf. unfold Set_log. rewrite Hb.
  unfold sys_write, next_fault.
  destruct Hfault as [-> | ->]; cbn; eexists _, _; (split; [reflexivity|]); done.
Qed.

(** C10.  With no open descriptor [Set] returns [nil], leaves the disk
    and the size counter alone, and still does its work in memory: the
    table holds the value afterwards, and unless it held it before, the
    value is installed and the entry joins the backlog. *)
Theorem Set_without_log_file db w k v :
  logFilePtr db = None →
  ∃ db', Set_ db w k v = (Returned None, db', w) ∧
    logFileSize db' = logFileSize db ∧ logFilePtr db' = None ∧
    data db' !! k = Some v ∧
    (data db !! k ≠ Some v →
       data db' = <[k := v]> (data db) ∧
       writeAhead db' = writeAhead db ++ [entry_for db k v]).
Proof.
  intros Hnil. unfold Set_. rewrite Set_entry_eq. case_decide as Hk.
  - exists db. split; [reflexivity|]. do 3 (split; [done|]).
    intros Hne. contradiction.
  - cbn [logFilePtr set_data set_writeAhead]. rewrite Hnil.
    eexists. split; [reflexivity|]. cbn. do 2 (split; [done|]).
    split; [apply lookup_insert_eq | done].
Qed.

End SetClaims.

(* ===================================================================== *)
(** * The size counter and rotation                                      *)
(* ===================================================================== *)

Lemma int64_small (x : Z) : - 2 ^ 63 ≤ x < 2 ^ 63 → int64 x = x.
Proof. intros Hx. unfold int64. rewrite Z.mod_small by lia. lia. Qed.

Section RotationClaims.
Context `{ProtoCodec}.

(** C7 (as amended).  A [Set] that is logged without a failing system
    call adds [4 + len(payload)] to the size counter.  While the sum stays
    below [rotateSize] the record is appended to the log and the counter
    keeps the sum.  Once the sum reaches [rotateSize] the log is rotated:
    the file with the new record is moved to [<path>_<timestamp>] (the
    stamp is [Format], which has second precision), [<path>] is a new
    empty file opened for append, and the counter is 0 -- which is below
    the threshold exactly when the threshold is positive. *)
Theorem Set_counts_and_rotates db w k v b old :
  logFilePtr db = Some (logFile db) → files w !! logFile db = Some old →
  faults w = [] →
  data db !! k ≠ Some v → Marshal (entry_for db k v) = Some b →
  0 ≤ logFileSize db → logFileSize db + Z.of_nat (length b) + 4 < 2 ^ 63 →
  ∃ db' w', Set_ db w k v = (Returned None, db', w') ∧
    logFilePtr db' = Some (logFile db) ∧
    if decide (logFileSize db + (4 + Z.of_nat (length b)) < rotateSize db) then
      logFileSize db' = logFileSize db + (4 + Z.of_nat (length b)) ∧
      files w' = <[logFile db := old ++ frame b]> (files w)
    else
      logFileSize db' = 0 ∧
      files w' =
        <[logFile db := []]>
          (<[logFile db +:+ "_" +:+ Format (now w) := old ++ frame b]>
             (delete (logFile db) (files w))) ∧
      (0 < rotateSize db → logFileSize db' < rotateSize db').
Proof.
  intros Hf Hold Hq Hk Hb Hpos Hmax.
  unfold Set_. rewrite Set_entry_eq, decide_False by exact Hk.
  cbn [logFilePtr set_data set_writeAhead]. rewrite Hf.
  rewrite (Set_log_quiet _ _ b) by assumption. cbv zeta.
  cbn [logFileSize rotateSize set_logFileSize set_data set_writeAhead files].
  rewrite Hold. cbn [from_option]. unfold id.
  rewrite (int64_small (Z.of_nat (length b) + 4)) by lia.
  rewrite int64_small by lia.
  replace (logFileSize db + (Z.of_nat (length b) + 4))
    with (logFileSize db + (4 + Z.of_nat (length b))) by lia.
  case_decide as Hlow.
  - rewrite bool_decide_false by lia. eexists _, _. split; [reflexivity|].
    cbn. done.
  - rewrite bool_decide_true by lia.
    erewrite rotateLogFile_quiet;
      [ | exact Hq | cbn; exact Hf | cbn; apply lookup_insert_eq ].
    eexists _, _. split; [reflexivity|]. cbn.
    rewrite delete_insert_eq. done.
Qed.

End RotationClaims.

(* ===================================================================== *)
(** * [Delete] and what a replay brings back                             *)
(* ===================================================================== *)

Section DeleteClaims.
Context `{ProtoRoundTrip}.


End DeleteClaims.

(* ===================================================================== *)
(** * The flusher's tick                                                 *)
(* ===================================================================== *)

Section FlushFacts.
Context `{ProtoCodec}.

(** What a tick does to the disk when nothing fails: the encodings of the
    whole backlog, one after the other and without length prefixes, are
    appended to the log file. *)
Lemma flush_tick_quiet db w f logData :
  faults w = [] → logFilePtr db = Some f →
  flush_marshal (writeAhead db) [] = Some logData →
  flush_tick db w =
    (Returned None,
     with_files (<[f := default [] (files w !! f) ++ logData]> (files w)) w).
Proof.
  intros Hq Hf Hm. unfold flush_tick. rewrite Hm, Hf.
  rewrite sys_write_quiet by exact Hq. rewrite sys_sync_quiet by exact Hq.
  reflexivity.
Qed.

End FlushFacts.

(* ===================================================================== *)
(** * The operations on concrete inputs                                  *)
(* ===================================================================== *)

Section Concrete.
Import Demo.
#[local] Existing Instance FixedOrder.codec.

Lemma opened_quiet (rotateSize : Z) :
  opened rotateSize quiet_world = (open_db rotateSize, open_world).
Proof. reflexivity. Qed.


(** The driver's calls under the concrete codec: the three values are
    read back as [main] prints them, and after [Delete("age")] the key is
    gone from the table. *)
Lemma driver_reads_back :
  let s1 := Set_ (open_db 32) open_world "name" (bytes "John") in
  let s2 := Set_ s1.1.2 s1.2 "age" (bytes "30") in
  let s3 := Set_ s2.1.2 s2.2 "city" (bytes "New York") in
  s1.1.1 = Returned None ∧ s2.1.1 = Returned None ∧ s3.1.1 = Returned None ∧
  Get s3.1.2 "name" = Some (bytes "John") ∧
  Get s3.1.2 "age" = Some (bytes "30") ∧
  Get s3.1.2 "city" = Some (bytes "New York") ∧
  Get (Delete s3.1.2 "age") "age" = None.
Proof. cbv zeta. repeat split; vm_compute; reflexivity. Qed.



(** C3, counterexample.  Once "age" holds "30", two calls of
    [Set("age", "30")] in a row both return [nil] and produce no log
    entry at all, in the backlog or in the file -- not one. *)
Lemma set_twice_on_held_value_logs_nothing :
  let held := Set_ (open_db 1024) open_world "age" (bytes "30") in
  let first := Set_ held.1.2 held.2 "age" (bytes "30") in
  let second := Set_ first.1.2 first.2 "age" (bytes "30") in
  data held.1.2 !! "age" = Some (bytes "30") ∧
  first.1.1 = Returned None ∧ second.1.1 = Returned None ∧
  length (writeAhead second.1.2) = length (writeAhead held.1.2) ∧
  files second.2 = files held.2 ∧
  data second.1.2 !! "age" = Some (bytes "30").
Proof. cbv zeta. repeat split; vm_compute; reflexivity. Qed.

Lemma Set_insert_update_or_noop_witness :
  ∃ r db1 w1,
    Set_ (open_db 1024) open_world "age" (bytes "30") = (r, db1, w1) ∧
    writeAhead db1 = [insert_age] ∧
    data db1 = {["age" := bytes "30"]} ∧
    r = Returned None ∧
    files w1 = <["database.bin" := [] ++ frame (payload insert_age)]> (files open_world) ∧
    Set_ db1 w1 "age" (bytes "30") = (Returned None, db1, w1).
Proof.
  destruct (Set_insert_update_or_noop (open_db 1024) open_world "age" (bytes "30"))
    as (r & db1 & w1 & Hset & Hins & _ & _ & Hdisk & Htwice & _).
  exists r, db1, w1. split; [exact Hset|].
  destruct (Hins eq_refl) as [Hwa Hdata].
  destruct (Hdisk "database.bin" (payload insert_age)) as [Hr Hfiles].
  - vm_compute. discriminate.
  - reflexivity.
  - reflexivity.
  - vm_compute. reflexivity.
  - vm_compute. reflexivity.
  - split; [exact Hwa|]. split; [exact Hdata|]. split; [exact Hr|].
    split; [exact Hfiles | exact Htwice].
Defined.

(** C4, counterexample.  The first write of [Set("age", "30")] fails:
    the caller gets the error and nothing has reached the file, yet
    the table, which had no "age", now binds it. *)
Lemma failed_append_leaves_table_changed :
  let res := Set_ (open_db 1024) failing_world "age" (bytes "30") in
  res.1.1 = Returned (Some ErrIO) ∧
  files res.2 = files failing_world ∧
  data (open_db 1024) !! "age" = None ∧
  data res.1.2 !! "age" = Some (bytes "30") ∧
  writeAhead res.1.2 = [insert_age].
Proof. cbv zeta. repeat split; vm_compute; reflexivity. Qed.

Lemma Set_append_failure_keeps_mutation_witness :
  ∃ db' w',
    Set_ (open_db 1024) failing_world "age" (bytes "30")
      = (Returned (Some ErrIO), db', w') ∧
    data db' = <["age" := bytes "30"]> (data (open_db 1024)) ∧
    writeAhead db' = writeAhead (open_db 1024) ++ [entry_for (open_db 1024) "age" (bytes "30")] ∧
    logFileSize db' = logFileSize (open_db 1024) ∧
    logFilePtr db' = logFilePtr (open_db 1024).
Proof.
  apply (Set_append_failure_keeps_mutation (open_db 1024) failing_world
           "age" (bytes "30") "database.bin" (payload insert_age) []).
  - reflexivity.
  - vm_compute. discriminate.
  - vm_compute. reflexivity.
  - left. reflexivity.
Defined.

(** C7, counterexample.  With a threshold of 0 the first logged [Set]
    rotates the log and resets the counter to 0, which is not below the
    threshold. *)
Lemma rotation_with_zero_threshold :
  let res := Set_ (open_db 0) open_world "age" (bytes "30") in
  res.1.1 = Returned None ∧
  files res.2 !! "database.bin" = Some [] ∧
  files res.2 !! "database.bin_20230605_070809" = Some (frame (payload insert_age)) ∧
  logFileSize res.1.2 = 0 ∧
  ¬ (logFileSize res.1.2 < rotateSize res.1.2).
Proof.
  cbv zeta. repeat split; try (vm_compute; reflexivity).
  vm_compute. discriminate.
Qed.

Lemma Set_counts_and_rotates_witness :
  ∃ db' w',
    Set_ (open_db 8) open_world "age" (bytes "30") = (Returned None, db', w') ∧
    logFilePtr db' = Some "database.bin" ∧
    logFileSize db' = 0 ∧
    files w' =
      <["database.bin" := []]>
        (<["database.bin" +:+ "_" +:+ Format clock := [] ++ frame (payload insert_age)]>
           (delete "database.bin" (files open_world))) ∧
    logFileSize db' < rotateSize db'.
Proof.
  destruct (Set_counts_and_rotates (open_db 8) open_world "age" (bytes "30")
              (payload insert_age) [])
    as (db' & w' & Hset & Hptr & Hcase).
  - reflexivity.
  - reflexivity.
  - reflexivity.
  - vm_compute. discriminate.
  - vm_compute. reflexivity.
  - vm_compute. discriminate.
  - vm_compute. reflexivity.
  - exists db', w'. split; [exact Hset|]. split; [exact Hptr|].
    destruct (decide _) as [Hlow|_] in Hcase.
    + exfalso. vm_compute in Hlow. discriminate.
    + destruct Hcase as (Hzero & Hfiles & Hbelow).
      split; [exact Hzero|]. split; [exact Hfiles|]. apply Hbelow. reflexivity.
Defined.

(** C9, the defect on a run.  After [Set("age", "30")] the log holds one
    framed record.  One tick of the flusher returns normally and leaves
    the file longer: the payload of that record has been appended a
    second time, without a length prefix. *)
Lemma flush_tick_rewrites_backlog :
  let res := Set_ (open_db 1024) open_world "age" (bytes "30") in
  let tick := flush_tick res.1.2 res.2 in
  files res.2 !! "database.bin" = Some (frame (payload insert_age)) ∧
  tick.1 = Returned None ∧
  files tick.2 !! "database.bin"
    = Some (frame (payload insert_age) ++ payload insert_age) ∧
  files tick.2 ≠ files res.2.
Proof.
  cbv zeta. repeat split; try (vm_compute; reflexivity).
  intros Heq. apply (f_equal (λ fs, length <$> fs !! "database.bin")) in Heq.
  vm_compute in Heq. discriminate.
Qed.

Lemma Set_without_log_file_witness :
  ∃ db',
    Set_ (NewDatabase "database.bin" 32) quiet_world "age" (bytes "30")
      = (Returned None, db', quiet_world) ∧
    logFileSize db' = 0 ∧ logFilePtr db' = None ∧
    data db' !! "age" = Some (bytes "30") ∧
    data db' = {["age" := bytes "30"]} ∧
    writeAhead db' = [insert_age].
Proof.
  destruct (Set_without_log_file (NewDatabase "database.bin" 32) quiet_world
              "age" (bytes "30") eq_refl)
    as (db' & Hset & Hsize & Hptr & Hk & Hmem).
  exists db'. split; [exact Hset|]. split; [exact Hsize|]. split; [exact Hptr|].
  split; [exact Hk|]. apply Hmem. vm_compute. discriminate.
Defined.

End Concrete.

(* ===================================================================== *)
(** * Further properties: the table                                      *)
(* ===================================================================== *)

Section TableProperties.
Context `{ProtoCodec}.

(** X1.  Whatever happens to the log -- no descriptor, a failing write, a
    rotation that stops the process -- after [Set(k, v)] a [Get(k)] returns
    [v], every other key reads as before, and the path and the threshold of
    the database are unchanged. *)
Theorem Set_then_Get db w k v :
  Get (Set_ db w k v).1.2 k = Some v ∧
  (∀ k', k' ≠ k → Get (Set_ db w k v).1.2 k' = Get db k') ∧
  logFile (Set_ db w k v).1.2 = logFile db ∧
  rotateSize (Set_ db w k v).1.2 = rotateSize db.
Proof.
  destruct (Set_ db w k v) as [[r db'] w'] eqn:Hset. cbn [fst snd]. unfold Get.
  destruct (Set_memory _ _ _ _ _ _ _ Hset) as (Hmem & Hlog & Hrot).
  rewrite Set_entry_eq in Hmem. case_decide as Hk.
  - injection Hmem as _ -> _. done.
  - destruct Hmem as [-> _]. split; [apply lookup_insert_eq|].
    split; [|done]. intros k' Hne. apply lookup_insert_ne. congruence.
Qed.

(** X2.  After [Delete(k)] a [Get(k)] finds nothing and the other keys read
    as before; and a [Set(k, v)] that follows is never the no-op: it puts an
    INSERT entry on the backlog even when [v] is the value that the key held
    before it was deleted. *)
Theorem Delete_then_Set_inserts db w k v :
  Get (Delete db k) k = None ∧
  (∀ k', k' ≠ k → Get (Delete db k) k' = Get db k') ∧
  writeAhead (Set_ (Delete db k) w k v).1.2
    = writeAhead db ++ [ {| Op := INSERT; Key := k; Value := v |} ] ∧
  Get (Set_ (Delete db k) w k v).1.2 k = Some v.
Proof.
  split; [apply lookup_delete_eq|].
  split; [intros k' Hne; apply lookup_delete_ne; congruence|].
  destruct (Set_ (Delete db k) w k v) as [[r db'] w'] eqn:Hset. cbn [fst snd].
  destruct (Set_memory _ _ _ _ _ _ _ Hset) as (Hmem & _).
  rewrite Set_entry_eq in Hmem. unfold entry_for, Delete in Hmem.
  cbn [data set_data writeAhead] in Hmem. rewrite lookup_delete_eq in Hmem.
  rewrite decide_False in Hmem by discriminate.
  destruct Hmem as [Hd Hw]. split; [exact Hw|].
  unfold Get. rewrite Hd. apply lookup_insert_eq.
Qed.

Lemma sys_write_error path b w err w' :
  sys_write path b w = (Some err, w') → err = ErrIO ∧ files w' = files w.
Proof.
  unfold sys_write, next_fault.
  destruct (faults w) as [|[] fs]; intros [= <- <-]; done.
Qed.

Lemma Set_log_error f logEntry db w err db' w' :
  Set_log f logEntry db w = (Returned (Some err), db', w') →
  db' = db ∧ (err = ErrProto ∨ err = ErrIO).
Proof.
  unfold Set_log. destruct (Marshal logEntry) as [b|]; [|intros [= <- <- <-]; eauto].
  destruct (sys_write f _ w) as [[e1|] w1] eqn:H1.
  { intros [= <- <- <-]. apply sys_write_error in H1 as [-> _]. eauto. }
  destruct (sys_write f b w1) as [[e2|] w2] eqn:H2.
  { intros [= <- <- <-]. apply sys_write_error in H2 as [-> _]. eauto. }
  case_bool_decide; [|discriminate].
  destruct (rotateLogFile _ w2) as [[[e3|] db3] w3]; discriminate.
Qed.

(** X3.  Whenever [Set] returns an error, the error comes from
    [proto.Marshal] or from a write, the log was open and the call was not
    the no-op; and nothing is rolled back or counted: the table holds the new
    value, the backlog the new entry, and the size counter and the
    descriptor are as before. *)
Theorem Set_error_keeps_mutation db w k v e :
  (Set_ db w k v).1.1 = Returned (Some e) →
  (e = ErrProto ∨ e = ErrIO) ∧
  is_Some (logFilePtr db) ∧ data db !! k ≠ Some v ∧
  data (Set_ db w k v).1.2 = <[k := v]> (data db) ∧
  writeAhead (Set_ db w k v).1.2 = writeAhead db ++ [entry_for db k v] ∧
  logFileSize (Set_ db w k v).1.2 = logFileSize db ∧
  logFilePtr (Set_ db w k v).1.2 = logFilePtr db.
Proof.
  unfold Set_. rewrite Set_entry_eq. case_decide as Hk; [discriminate|].
  cbn [logFilePtr set_data set_writeAhead].
  destruct (logFilePtr db) as [f|] eqn:Hf; [|discriminate].
  destruct (Set_log f _ _ w) as [[r db'] w'] eqn:Hlog. cbn [fst snd].
  intros ->. apply Set_log_error in Hlog as [-> Herr].
  cbn. rewrite Hf. eauto 10.
Qed.

End TableProperties.

(* ===================================================================== *)
(** * Further properties: framing and replay                             *)
(* ===================================================================== *)

Lemma apply_entries_union (es : list LogEntry) (d : gmap string (list byte)) :
  apply_entries es d = apply_entries es ∅ ∪ d.
Proof.
  induction es as [|e es IH] using rev_ind.
  - cbn. symmetry. apply (left_id_L ∅ (∪)).
  - rewrite !apply_entries_snoc, IH. apply insert_union_l.
Qed.

Lemma apply_entries_lookup (es : list LogEntry) (d : gmap string (list byte)) k :
  apply_entries es d !! k =
    match latest k es with Some e => Some (Value e) | None => d !! k end.
Proof.
  unfold latest. induction es as [|e es IH] using rev_ind; [reflexivity|].
  rewrite apply_entries_snoc, filter_app, filter_cons, filter_nil.
  destruct (decide (Key e = k)) as [Heq|Hne].
  - rewrite last_snoc, <- Heq. apply lookup_insert_eq.
  - rewrite app_nil_r, lookup_insert_ne by exact Hne. exact IH.
Qed.

(** X4.  What [Set] writes, the replayer reads back: in front of any file
    contents, the four bytes of a record decode to the length of its payload
    modulo 2^32, and for a payload below 2^32 bytes the read of that many
    bytes at offset 4 returns the payload itself. *)
Theorem frame_read_back (p rest : list byte) :
  ∃ buf, ReadAt (frame p ++ rest) 4 0 = Some buf ∧
    Uint32 buf = Z.of_nat (length p) mod 2 ^ 32 ∧
    (Z.of_nat (length p) < 2 ^ 32 →
     ReadAt (frame p ++ rest) (Z.to_nat (Uint32 buf)) 4 = Some p).
Proof.
  exists (PutUint32 (uint32 (Z.of_nat (length p)))).
  unfold frame. rewrite <- app_assoc.
  set (hdr := PutUint32 (uint32 (Z.of_nat (length p)))).
  assert (Hu : Uint32 hdr = Z.of_nat (length p) mod 2 ^ 32).
  { subst hdr. rewrite <- (app_nil_r (PutUint32 _)), Uint32_PutUint32_mod.
    unfold uint32. apply Z.mod_mod. lia. }
  split; [exact (ReadAt_prefix hdr (p ++ rest))|]. split; [exact Hu|].
  intros Hlen. rewrite Hu, Z.mod_small, Nat2Z.id by lia.
  change 4%nat with (length hdr + 0)%nat.
  rewrite ReadAt_app_skip. apply ReadAt_prefix.
Qed.

Section ReplayProperties.
Context `{ProtoCodec}.

(** X5.  The loop of [ReplayWriteAheadLog] terminates on every file, also
    on one with records of length zero: every iteration that goes on has
    consumed at least the four bytes of a length prefix, so a quarter of
    the bytes that remain, plus one, bounds the number of iterations. *)
Theorem replay_loop_terminates fuel file off d :
  (length file - off < 4 * fuel)%nat → is_Some (replay_loop fuel file off d).
Proof.
  revert off d. induction fuel as [|fuel IH]; intros off d Hlt; [lia|].
  cbn [replay_loop]. unfold ReadAt at 1. rewrite decide_False by lia.
  case_decide as H4; [|eauto].
  destruct (ReadAt file _ (off + 4)) as [item|] eqn:Hitem; [|eauto].
  destruct (Unmarshal item) as [entry|]; [|eauto].
  apply IH. lia.
Qed.

(** X6.  Replaying into a table that is not empty overlays the log on it:
    the error status is the one of a replay into the empty table, and the
    table is the result of that replay, completed by the bindings of the
    keys that the log does not assign. *)
Theorem replay_overlays (file : list byte) (d : gmap string (list byte)) :
  ∃ err m, replay file ∅ = Some (err, m) ∧ replay file d = Some (err, m ∪ d).
Proof.
  destruct (replay_total file ∅) as [[err m] Hm]. exists err, m.
  split; [exact Hm|].
  destruct (replay_loop_entries _ _ _ _ _ _ Hm) as [es Hes].
  pose proof (Hes ∅) as H0. unfold replay in Hm. rewrite Hm in H0.
  injection H0 as ->. unfold replay. rewrite Hes. f_equal. f_equal.
  apply apply_entries_union.
Qed.

(** X7.  The last record wins: after a replay of complete records, a key
    is bound to the value of the last entry of the log that names it,
    whatever the operation of that entry, and a key that no entry names
    keeps the binding it had. *)
Theorem replay_last_entry_wins ps es d :
  Forall2 decodes ps es →
  ∃ m, replay (framed ps) d = Some (None, m) ∧
    ∀ k, m !! k = match latest k es with
                  | Some e => Some (Value e)
                  | None => d !! k
                  end.
Proof.
  intros Hdec. exists (apply_entries es d).
  split; [apply replay_framed_all; exact Hdec|].
  intros k. apply apply_entries_lookup.
Qed.

End ReplayProperties.

(* ===================================================================== *)
(** * Further properties: the log behind the table                       *)
(* ===================================================================== *)

Section LogProperties.
Context `{ProtoCodec}.

(** The whole of a logged [Set] when no system call fails. *)
Lemma Set_quiet_result db w k v b old :
  logFilePtr db = Some (logFile db) → files w !! logFile db = Some old →
  faults w = [] → data db !! k ≠ Some v → Marshal (entry_for db k v) = Some b →
  Set_ db w k v =
    let size := int64 (logFileSize db + int64 (Z.of_nat (length b) + 4)) in
    let db1 :=
      set_logFileSize size
        (set_data (<[k := v]> (data db))
           (set_writeAhead (writeAhead db ++ [entry_for db k v]) db)) in
    if bool_decide (rotateSize db ≤ size) then
      (Returned None,
       set_logFileSize 0 (set_logFilePtr (Some (logFile db)) db1),
       with_files
         (<[logFile db := []]>
            (<[rotated_name db w := old ++ frame b]> (delete (logFile db) (files w))))
         w)
    else
      (Returned None, db1, with_files (<[logFile db := old ++ frame b]> (files w)) w).
Proof.
  intros Hf Hold Hq Hk Hb. unfold Set_. rewrite Set_entry_eq, decide_False by exact Hk.
  cbn [logFilePtr set_data set_writeAhead]. rewrite Hf.
  rewrite (Set_log_quiet _ _ b) by assumption. cbv zeta.
  cbn [logFileSize rotateSize set_logFileSize set_data set_writeAhead files].
  rewrite Hold. cbn [from_option]. unfold id.
  case_bool_decide; [|reflexivity].
  erewrite rotateLogFile_quiet; [ | exact Hq | cbn; exact Hf | cbn; apply lookup_insert_eq ].
  cbn. rewrite delete_insert_eq. reflexivity.
Qed.

Lemma log_exact_replay db w :
  log_exact db w →
  ∃ file, files w !! logFile db = Some file ∧ replay file ∅ = Some (None, data db).
Proof.
  intros (_ & ps & es & Hfile & Hdec & Heq). exists (framed ps).
  split; [exact Hfile|]. rewrite <- Heq. apply replay_framed_all. exact Hdec.
Qed.

End LogProperties.

Section DurabilityProperties.
Context `{ProtoRoundTrip}.

(** X8.  [Set] keeps the log in step with the table.  When the log is open
    on a file of complete records whose replay gives exactly the table, no
    system call fails and no rotation is due, [Set] returns [nil] and the
    same holds afterwards: replaying the log file into an empty table
    returns [nil] and gives exactly the table that [Set] left. *)
Theorem Set_keeps_log_exact db w k v :
  log_exact db w → faults w = [] →
  (data db !! k ≠ Some v →
     ∃ b, Marshal (entry_for db k v) = Some b ∧ Z.of_nat (length b) < 2 ^ 32 ∧
          int64 (logFileSize db + int64 (Z.of_nat (length b) + 4)) < rotateSize db) →
  ∃ db1 w1 file,
    Set_ db w k v = (Returned None, db1, w1) ∧
    log_exact db1 w1 ∧
    files w1 !! logFile db1 = Some file ∧
    replay file ∅ = Some (None, data db1).
Proof.
  intros Hex Hq Hlog.
  assert (Hgoal : ∃ db1 w1, Set_ db w k v = (Returned None, db1, w1) ∧ log_exact db1 w1).
  { destruct Hex as (Hf & ps & es & Hfile & Hdec & Heq).
    destruct (decide (data db !! k = Some v)) as [Hk|Hk].
    - exists db, w. split; [apply Set_same_value; exact Hk|].
      split; [exact Hf|]. eauto.
    - destruct (Hlog Hk) as (b & Hb & Hlen & Hlow).
      rewrite (Set_quiet_result _ _ _ _ b (framed ps)) by assumption. cbv zeta.
      rewrite bool_decide_false by lia. eexists _, _. split; [reflexivity|].
      split; [exact Hf|]. exists (ps ++ [b]), (es ++ [entry_for db k v]).
      cbn [logFile set_logFileSize set_data set_writeAhead files with_files data].
      split; [rewrite lookup_insert_eq, framed_snoc; reflexivity|].
      split.
      + apply Forall2_app; [exact Hdec|]. constructor; [|constructor].
        split; [apply Unmarshal_Marshal; exact Hb | exact Hlen].
      + rewrite apply_entries_snoc, Heq. reflexivity. }
  destruct Hgoal as (db1 & w1 & Hset & Hex1).
  destruct (log_exact_replay _ _ Hex1) as (file & Hfile & Hrep).
  exists db1, w1, file. done.
Qed.


End DurabilityProperties.

(* ===================================================================== *)
(** * Further properties: the counter, rotation and the flusher          *)
(* ===================================================================== *)

Section RotationProperties.
Context `{ProtoCodec}.

(** X10.  Once the size counter equals the length of the active file (as
    after opening a new log, or after a rotation), every [Set] during which
    no system call fails keeps it so, whether the call is the no-op, fails
    to marshal, appends a record, or appends and rotates; and such a call
    never stops the process. *)
Theorem Set_keeps_counter_exact db w k v :
  counter_exact db w → faults w = [] →
  (∀ b, Marshal (entry_for db k v) = Some b →
        logFileSize db + Z.of_nat (length b) + 4 < 2 ^ 63) →
  counter_exact (Set_ db w k v).1.2 (Set_ db w k v).2 ∧
  ∃ err, (Set_ db w k v).1.1 = Returned err.
Proof.
  intros (Hf & file & Hfile & Hsize) Hq Hmax.
  destruct (decide (data db !! k = Some v)) as [Hk|Hk].
  { rewrite (Set_same_value _ _ _ _ Hk). cbn. split; [|eauto].
    split; [exact Hf|]. eauto. }
  destruct (Marshal (entry_for db k v)) as [b|] eqn:Hb.
  - rewrite (Set_quiet_result _ _ _ _ b file) by assumption. cbv zeta.
    specialize (Hmax b eq_refl).
    rewrite (int64_small (Z.of_nat (length b) + 4)) by lia.
    rewrite int64_small by lia.
    case_bool_decide; cbn [fst snd]; (split; [|eauto]); unfold counter_exact;
      cbn [logFile logFilePtr logFileSize set_logFileSize set_logFilePtr set_data
             set_writeAhead files with_files];
      (split; [first [exact Hf | reflexivity]|]).
    + exists []. rewrite lookup_insert_eq. done.
    + exists (file ++ frame b). rewrite lookup_insert_eq. split; [done|].
      rewrite length_app, length_frame. lia.
  - unfold Set_. rewrite Set_entry_eq, decide_False by exact Hk.
    cbn [logFilePtr set_data set_writeAhead]. rewrite Hf. unfold Set_log. rewrite Hb.
    cbn [fst snd]. split; [|eauto]. split; [exact Hf|]. exists file. done.
Qed.

(** X11.  A rotation whose [Close] fails is given up without a trace: the
    [Set] that triggered it still returns [nil], its record is in the log
    file, no file is renamed or created, [db.logFilePtr] is not reset to
    [nil], and the counter is left at the value that reached the
    threshold. *)
Theorem rotation_given_up_when_close_fails db w k v b old fs :
  logFilePtr db = Some (logFile db) → files w !! logFile db = Some old →
  faults w = false :: false :: true :: fs →
  data db !! k ≠ Some v → Marshal (entry_for db k v) = Some b →
  rotateSize db ≤ int64 (logFileSize db + int64 (Z.of_nat (length b) + 4)) →
  ∃ db' w', Set_ db w k v = (Returned None, db', w') ∧
    logFilePtr db' = Some (logFile db) ∧
    logFileSize db' = int64 (logFileSize db + int64 (Z.of_nat (length b) + 4)) ∧
    rotateSize db' ≤ logFileSize db' ∧
    files w' = <[logFile db := old ++ frame b]> (files w) ∧
    faults w' = fs.
Proof.
  intros Hf Hold Hfaults Hk Hb Hdue.
  unfold Set_. rewrite Set_entry_eq, decide_False by exact Hk.
  cbn [logFilePtr set_data set_writeAhead]. rewrite Hf. unfold Set_log. rewrite Hb.
  unfold sys_write at 1, next_fault. rewrite Hfaults. cbn [files faults now with_files].
  unfold sys_write, next_fault. cbn [files faults now with_files].
  rewrite lookup_insert_eq, Hold. cbn [from_option]. unfold id.
  cbn [logFileSize rotateSize set_logFileSize set_data set_writeAhead].
  rewrite bool_decide_true by exact Hdue.
  unfold rotateLogFile, CloseLogFile.
  cbn [logFilePtr set_logFileSize set_data set_writeAhead]. rewrite Hf.
  unfold sys_close, next_fault. cbn [files faults now with_files].
  eexists _, _. split; [reflexivity|]. cbn.
  rewrite insert_insert_eq, <- app_assoc. done.
Qed.

(** X12.  A rotation whose [Rename] fails after the file was closed stops
    the process: [Set] does not return, the record is in the log file, and
    the database is left without a descriptor. *)
Theorem rotation_is_fatal_when_rename_fails db w k v b old fs :
  logFilePtr db = Some (logFile db) → files w !! logFile db = Some old →
  faults w = false :: false :: false :: true :: fs →
  data db !! k ≠ Some v → Marshal (entry_for db k v) = Some b →
  rotateSize db ≤ int64 (logFileSize db + int64 (Z.of_nat (length b) + 4)) →
  ∃ db' w', Set_ db w k v = (Fatal ErrIO, db', w') ∧
    logFilePtr db' = None ∧
    data db' = <[k := v]> (data db) ∧
    files w' = <[logFile db := old ++ frame b]> (files w).
Proof.
  intros Hf Hold Hfaults Hk Hb Hdue.
  unfold Set_. rewrite Set_entry_eq, decide_False by exact Hk.
  cbn [logFilePtr set_data set_writeAhead]. rewrite Hf. unfold Set_log. rewrite Hb.
  unfold sys_write at 1, next_fault. rewrite Hfaults. cbn [files faults now with_files].
  unfold sys_write, next_fault. cbn [files faults now with_files].
  rewrite lookup_insert_eq, Hold. cbn [from_option]. unfold id.
  cbn [logFileSize rotateSize set_logFileSize set_data set_writeAhead].
  rewrite bool_decide_true by exact Hdue.
  unfold rotateLogFile, CloseLogFile.
  cbn [logFilePtr set_logFileSize set_data set_writeAhead]. rewrite Hf.
  unfold sys_close, sys_rename, next_fault. cbn [files faults now with_files].
  eexists _, _. split; [reflexivity|]. cbn.
  rewrite insert_insert_eq, <- app_assoc. done.
Qed.

(** X13.  Two rotations within the same second lose a segment.  The name
    of a rotated file only depends on the clock down to the second, and
    [os.Rename] replaces an existing file: when two logged calls of [Set]
    both rotate and the clock reads the same second at both, the file that
    the first rotation had moved away is replaced by the second one, and
    the record of the first [Set] (with all that the log held before) is
    nowhere on the disk any more. *)
Theorem same_second_rotation_overwrites db w k1 v1 b1 old k2 v2 b2 t2 :
  logFilePtr db = Some (logFile db) → files w !! logFile db = Some old →
  faults w = [] →
  data db !! k1 ≠ Some v1 → Marshal (entry_for db k1 v1) = Some b1 →
  rotateSize db ≤ int64 (logFileSize db + int64 (Z.of_nat (length b1) + 4)) →
  data (Set_ db w k1 v1).1.2 !! k2 ≠ Some v2 →
  Marshal (entry_for (Set_ db w k1 v1).1.2 k2 v2) = Some b2 →
  rotateSize db ≤ int64 (0 + int64 (Z.of_nat (length b2) + 4)) →
  Format t2 = Format (now w) →
  let first := Set_ db w k1 v1 in
  let second := Set_ first.1.2 (with_now t2 first.2) k2 v2 in
  first.1.1 = Returned None ∧ second.1.1 = Returned None ∧
  files first.2 !! rotated_name db w = Some (old ++ frame b1) ∧
  files second.2 =
    <[logFile db := []]>
      (<[rotated_name db w := frame b2]> (delete (logFile db) (files w))).
Proof.
  intros Hf Hold Hq Hk1 Hb1 Hdue1.
  rewrite (Set_quiet_result _ _ _ _ b1 old) by assumption. cbv zeta.
  rewrite bool_decide_true by exact Hdue1. cbn [fst snd].
  intros Hk2 Hb2 Hdue2 Hstamp.
  assert (Hfresh : rotated_name db w ≠ logFile db) by apply rotated_name_fresh.
  split; [reflexivity|].
  rewrite (Set_quiet_result _ _ _ _ b2 []);
    [ | reflexivity | | cbn; exact Hq | exact Hk2 | exact Hb2 ].
  2:{ cbn. apply lookup_insert_eq. }
  cbv zeta. cbn [rotateSize logFileSize set_logFileSize set_logFilePtr set_data
                   set_writeAhead].
  rewrite bool_decide_true by exact Hdue2. cbn [fst snd].
  split; [reflexivity|].
  cbn [files with_files with_now logFile set_logFileSize set_logFilePtr set_data
         set_writeAhead].
  split.
  { rewrite lookup_insert_ne by congruence. apply lookup_insert_eq. }
  unfold rotated_name.
  cbn [now with_now with_files logFile set_logFileSize set_logFilePtr set_data
         set_writeAhead].
  rewrite Hstamp. fold (rotated_name db w).
  rewrite delete_insert_eq, delete_insert_ne by congruence.
  rewrite delete_delete_eq, insert_insert_eq. reflexivity.
Qed.

(** X14.  One tick of the flusher, when nothing fails, appends to the log
    file the encodings of all entries of the backlog -- every entry that
    [Set] has emitted since the start, in order, without length prefixes --
    and changes nothing else; with no open descriptor the tick stops the
    process instead. *)
Theorem flush_tick_appends_whole_backlog db w ps :
  Forall2 (λ e p, Marshal e = Some p) (writeAhead db) ps →
  (∀ f, logFilePtr db = Some f → faults w = [] →
     flush_tick db w =
       (Returned None,
        with_files (<[f := default [] (files w !! f) ++ concat ps]> (files w)) w)) ∧
  (logFilePtr db = None → flush_tick db w = (Fatal ErrInvalid, w)).
Proof.
  intros Hps.
  assert (Hm : ∀ acc, flush_marshal (writeAhead db) acc = Some (acc ++ concat ps)).
  { induction Hps as [|e p es ps He _ IH]; intros acc; cbn.
    - rewrite app_nil_r. reflexivity.
    - rewrite He, IH, <- app_assoc. reflexivity. }
  split.
  - intros f Hf Hq. apply flush_tick_quiet; [exact Hq | exact Hf | apply (Hm [])].
  - intros Hnil. unfold flush_tick. rewrite (Hm []), Hnil. reflexivity.
Qed.

End RotationProperties.

(* ===================================================================== *)
(** * Further properties: what [Set] leaves alone on the disk            *)
(* ===================================================================== *)

Lemma next_fault_keeps w fails w' :
  next_fault w = (fails, w') → files w' = files w ∧ now w' = now w.
Proof. unfold next_fault. destruct (faults w); intros [= <- <-]; done. Qed.

Lemma sys_write_elsewhere f b w r w' :
  sys_write f b w = (r, w') →
  now w' = now w ∧ ∀ p, p ≠ f → files w' !! p = files w !! p.
Proof.
  unfold sys_write. destruct (next_fault w) as [fails w1] eqn:Hn.
  apply next_fault_keeps in Hn as [Hfs Hnow].
  destruct fails; intros [= <- <-]; cbn; (split; [done|]); intros p Hp.
  - rewrite Hfs. reflexivity.
  - rewrite lookup_insert_ne by congruence. rewrite Hfs. reflexivity.
Qed.

Lemma sys_close_keeps w r w' :
  sys_close w = (r, w') → files w' = files w ∧ now w' = now w.
Proof.
  unfold sys_close. destruct (next_fault w) as [fails w1] eqn:Hn.
  apply next_fault_keeps in Hn. intros [= <- <-]. exact Hn.
Qed.

Lemma sys_rename_elsewhere a b w r w' :
  sys_rename a b w = (r, w') →
  now w' = now w ∧ ∀ p, p ≠ a → p ≠ b → files w' !! p = files w !! p.
Proof.
  unfold sys_rename. destruct (next_fault w) as [fails w1] eqn:Hn.
  apply next_fault_keeps in Hn as [Hfs Hnow].
  destruct fails; [intros [= <- <-]; rewrite Hfs; done|].
  destruct (files w1 !! a) as [c|]; intros [= <- <-]; cbn; (split; [done|]);
    intros p Hpa Hpb; rewrite <- Hfs; [|reflexivity].
  rewrite lookup_insert_ne, lookup_delete_ne by congruence. reflexivity.
Qed.

Lemma sys_open_append_elsewhere path w r w' :
  sys_open_append path w = (r, w') →
  now w' = now w ∧ ∀ p, p ≠ path → files w' !! p = files w !! p.
Proof.
  unfold sys_open_append. destruct (next_fault w) as [fails w1] eqn:Hn.
  apply next_fault_keeps in Hn as [Hfs Hnow].
  destruct fails; intros [= <- <-]; cbn; (split; [done|]); intros p Hp.
  - rewrite Hfs. reflexivity.
  - rewrite lookup_insert_ne by congruence. rewrite Hfs. reflexivity.
Qed.

Lemma rotateLogFile_elsewhere db w r db' w' p :
  rotateLogFile db w = (r, db', w') →
  p ≠ logFile db → p ≠ rotated_name db w → files w' !! p = files w !! p.
Proof.
  unfold rotateLogFile, CloseLogFile, OpenLogFile, rotated_name. intros Hr Hp Hrot.
  destruct (logFilePtr db) as [f|].
  - destruct (sys_close w) as [[e|] w1] eqn:Hc;
      apply sys_close_keeps in Hc as [Hfs Hnow]; [by simplify_eq; rewrite Hfs|].
    cbn [logFile set_logFilePtr] in Hr. rewrite Hnow in Hr.
    destruct (sys_rename _ _ w1) as [[e|] w2] eqn:Hren;
      apply sys_rename_elsewhere in Hren as [Hnow2 Hfs2];
      [simplify_eq; rewrite Hfs2, Hfs by assumption; reflexivity|].
    destruct (sys_open_append _ w2) as [[e|] w3] eqn:Ho;
      apply sys_open_append_elsewhere in Ho as [_ Hfs3];
      simplify_eq; rewrite Hfs3, Hfs2, Hfs by assumption; reflexivity.
  - destruct (sys_rename _ _ w) as [[e|] w2] eqn:Hren;
      apply sys_rename_elsewhere in Hren as [Hnow2 Hfs2];
      [simplify_eq; rewrite Hfs2 by assumption; reflexivity|].
    destruct (sys_open_append _ w2) as [[e|] w3] eqn:Ho;
      apply sys_open_append_elsewhere in Ho as [_ Hfs3];
      simplify_eq; rewrite Hfs3, Hfs2 by assumption; reflexivity.
Qed.

Section DiskProperties.
Context `{ProtoCodec}.

(** X15.  Whatever the system calls do, a [Set] on a database whose
    descriptor, if there is one, is open on its own log file changes no
    file but the log file and the file that a rotation at this second
    creates: every other path of the disk holds what it held. *)
Theorem Set_touches_only_the_log db w k v p :
  (∀ f, logFilePtr db = Some f → f = logFile db) →
  p ≠ logFile db → p ≠ rotated_name db w →
  files (Set_ db w k v).2 !! p = files w !! p.
Proof.
  intros Hown Hp Hrot. unfold Set_.
  destruct (Set_entry db k v) as [logEntry|]; [|reflexivity].
  cbn [logFilePtr set_data set_writeAhead].
  destruct (logFilePtr db) as [f|] eqn:Hf; [|reflexivity].
  rewrite (Hown f eq_refl). unfold Set_log.
  destruct (Marshal logEntry) as [b|]; [|reflexivity].
  destruct (sys_write _ _ w) as [[e|] w1] eqn:H1;
    apply sys_write_elsewhere in H1 as [Hnow1 Hfs1]; [cbn; auto|].
  destruct (sys_write _ b w1) as [[e|] w2] eqn:H2;
    apply sys_write_elsewhere in H2 as [Hnow2 Hfs2];
    [cbn; rewrite Hfs2, Hfs1 by assumption; reflexivity|].
  case_bool_decide; [|cbn; rewrite Hfs2, Hfs1 by assumption; reflexivity].
  destruct (rotateLogFile _ w2) as [[r db3] w3] eqn:Hr.
  apply (rotateLogFile_elsewhere _ _ _ _ _ p) in Hr;
    [ | exact Hp | unfold rotated_name in *; cbn; rewrite Hnow2, Hnow1; exact Hrot ].
  destruct r; cbn; rewrite Hr, Hfs2, Hfs1 by assumption; reflexivity.
Qed.

End DiskProperties.

(* ===================================================================== *)
(** * The further properties on concrete inputs                          *)
(* ===================================================================== *)

Section ConcreteProperties.
Import Demo.
#[local] Existing Instance FixedOrder.codec.

Lemma Set_then_Get_witness :
  Get (Set_ (open_db 8) failing_world "age" (bytes "30")).1.2 "age" = Some (bytes "30") ∧
  Get (Set_ (open_db 8) failing_world "age" (bytes "30")).1.2 "name"
    = Get (open_db 8) "name".
Proof.
  destruct (Set_then_Get (open_db 8) failing_world "age" (bytes "30"))
    as (Hk & Hother & _).
  split; [exact Hk|]. apply Hother. discriminate.
Defined.

Lemma Delete_then_Set_inserts_witness :
  let held := (Set_ (open_db 1024) open_world "age" (bytes "30")).1.2 in
  Get held "age" = Some (bytes "30") ∧
  Get (Delete held "age") "age" = None ∧
  writeAhead (Set_ (Delete held "age") open_world "age" (bytes "30")).1.2
    = writeAhead held ++ [insert_age].
Proof.
  cbv zeta. split; [vm_compute; reflexivity|].
  destruct (Delete_then_Set_inserts
              (Set_ (open_db 1024) open_world "age" (bytes "30")).1.2
              open_world "age" (bytes "30")) as (Hgone & _ & Hlog & _).
  split; [exact Hgone | exact Hlog].
Defined.

Lemma Set_error_keeps_mutation_witness :
  (Set_ (open_db 1024) failing_world "age" (bytes "30")).1.1 = Returned (Some ErrIO) ∧
  data (Set_ (open_db 1024) failing_world "age" (bytes "30")).1.2
    = <["age" := bytes "30"]> (data (open_db 1024)) ∧
  logFileSize (Set_ (open_db 1024) failing_world "age" (bytes "30")).1.2 = 0.
Proof.
  assert (Herr : (Set_ (open_db 1024) failing_world "age" (bytes "30")).1.1
                 = Returned (Some ErrIO)) by (vm_compute; reflexivity).
  split; [exact Herr|].
  destruct (Set_error_keeps_mutation _ _ _ _ _ Herr) as (_ & _ & _ & Hd & _ & Hs & _).
  split; [exact Hd | exact Hs].
Defined.

Lemma frame_read_back_witness :
  ∃ buf, ReadAt (frame (payload insert_age) ++ [x01; x02]) 4 0 = Some buf ∧
    ReadAt (frame (payload insert_age) ++ [x01; x02]) (Z.to_nat (Uint32 buf)) 4
      = Some (payload insert_age).
Proof.
  destruct (frame_read_back (payload insert_age) [x01; x02]) as (buf & Hbuf & _ & Hp).
  exists buf. split; [exact Hbuf|]. apply Hp. vm_compute. reflexivity.
Defined.

Lemma replay_loop_terminates_witness :
  is_Some (replay_loop 2 [x00; x00; x00; x00; x01] 0 ∅).
Proof. apply replay_loop_terminates. cbn. lia. Defined.

Lemma replay_last_entry_wins_witness :
  ∃ m, replay (framed [payload insert_age; payload delete_age]) ∅ = Some (None, m) ∧
    m !! "age" = Some [].
Proof.
  destruct (replay_last_entry_wins
              [payload insert_age; payload delete_age] [insert_age; delete_age] ∅)
    as (m & Hm & Hlast); [concrete_decodes|].
  exists m. split; [exact Hm|]. rewrite Hlast. reflexivity.
Defined.

Lemma open_db_exact (rotateSize : Z) : log_exact (open_db rotateSize) open_world.
Proof.
  split; [reflexivity|]. exists [], []. split; [reflexivity|].
  split; [constructor | reflexivity].
Qed.

Lemma Set_keeps_log_exact_witness :
  ∃ db1 w1 file,
    Set_ (open_db 1024) open_world "age" (bytes "30") = (Returned None, db1, w1) ∧
    log_exact db1 w1 ∧
    files w1 !! logFile db1 = Some file ∧
    replay file ∅ = Some (None, data db1).
Proof.
  apply (Set_keeps_log_exact (open_db 1024) open_world "age" (bytes "30")).
  - apply open_db_exact.
  - reflexivity.
  - intros _. exists (payload insert_age).
    split; [vm_compute; reflexivity|]. split; vm_compute; reflexivity.
Defined.



Lemma open_db_counter_exact (rotateSize : Z) :
  counter_exact (open_db rotateSize) open_world.
Proof. split; [reflexivity|]. exists []. split; reflexivity. Qed.

Lemma Set_keeps_counter_exact_witness :
  counter_exact (Set_ (open_db 8) open_world "age" (bytes "30")).1.2
                (Set_ (open_db 8) open_world "age" (bytes "30")).2 ∧
  ∃ err, (Set_ (open_db 8) open_world "age" (bytes "30")).1.1 = Returned err.
Proof.
  apply (Set_keeps_counter_exact (open_db 8) open_world "age" (bytes "30")).
  - apply open_db_counter_exact.
  - reflexivity.
  - intros b Hb. vm_compute in Hb. injection Hb as <-. vm_compute. reflexivity.
Defined.

Lemma rotation_given_up_when_close_fails_witness :
  ∃ db' w',
    Set_ (open_db 8) (with_faults [false; false; true] open_world) "age" (bytes "30")
      = (Returned None, db', w') ∧
    logFilePtr db' = Some "database.bin" ∧
    rotateSize db' ≤ logFileSize db' ∧
    files w' = <["database.bin" := [] ++ frame (payload insert_age)]> (files open_world).
Proof.
  destruct (rotation_given_up_when_close_fails (open_db 8)
              (with_faults [false; false; true] open_world) "age" (bytes "30")
              (payload insert_age) [] [])
    as (db' & w' & Hset & Hptr & _ & Hdue & Hfiles & _).
  - reflexivity.
  - reflexivity.
  - reflexivity.
  - vm_compute. discriminate.
  - vm_compute. reflexivity.
  - vm_compute. discriminate.
  - exists db', w'. done.
Defined.

Lemma rotation_is_fatal_when_rename_fails_witness :
  ∃ db' w',
    Set_ (open_db 8) (with_faults [false; false; false; true] open_world)
         "age" (bytes "30")
      = (Fatal ErrIO, db', w') ∧
    logFilePtr db' = None ∧
    files w' = <["database.bin" := [] ++ frame (payload insert_age)]> (files open_world).
Proof.
  destruct (rotation_is_fatal_when_rename_fails (open_db 8)
              (with_faults [false; false; false; true] open_world) "age" (bytes "30")
              (payload insert_age) [] [])
    as (db' & w' & Hset & Hptr & _ & Hfiles).
  - reflexivity.
  - reflexivity.
  - reflexivity.
  - vm_compute. discriminate.
  - vm_compute. reflexivity.
  - vm_compute. discriminate.
  - exists db', w'. done.
Defined.

Lemma same_second_rotation_overwrites_witness :
  let later := {| year := 2023; month := 6; day := 5; hour := 7; minute := 8;
                  second := 9; nanosecond := 999 |} in
  let first := Set_ (open_db 8) open_world "age" (bytes "30") in
  let second := Set_ first.1.2 (with_now later first.2) "name" (bytes "John") in
  files first.2 !! rotated_name (open_db 8) open_world
    = Some ([] ++ frame (payload insert_age)) ∧
  files second.2 =
    <["database.bin" := []]>
      (<[rotated_name (open_db 8) open_world :=
           frame (payload {| Op := INSERT; Key := "name"; Value := bytes "John" |})]>
         (delete "database.bin" (files open_world))).
Proof.
  cbv zeta.
  destruct (same_second_rotation_overwrites (open_db 8) open_world
              "age" (bytes "30") (payload insert_age) []
              "name" (bytes "John")
              (payload {| Op := INSERT; Key := "name"; Value := bytes "John" |})
              {| year := 2023; month := 6; day := 5; hour := 7; minute := 8;
                 second := 9; nanosecond := 999 |})
    as (_ & _ & Hfirst & Hsecond).
  - reflexivity.
  - reflexivity.
  - reflexivity.
  - vm_compute. discriminate.
  - vm_compute. reflexivity.
  - vm_compute. discriminate.
  - vm_compute. discriminate.
  - vm_compute. reflexivity.
  - vm_compute. discriminate.
  - reflexivity.
  - split; [exact Hfirst | exact Hsecond].
Defined.

Lemma flush_tick_appends_whole_backlog_witness :
  let held := Set_ (open_db 1024) open_world "age" (bytes "30") in
  flush_tick held.1.2 held.2 =
    (Returned None,
     with_files
       (<["database.bin" :=
            default [] (files held.2 !! "database.bin") ++ concat [payload insert_age]]>
          (files held.2))
       held.2).
Proof.
  cbv zeta.
  destruct (flush_tick_appends_whole_backlog
              (Set_ (open_db 1024) open_world "age" (bytes "30")).1.2
              (Set_ (open_db 1024) open_world "age" (bytes "30")).2
              [payload insert_age]) as [Hopen _].
  - constructor; [vm_compute; reflexivity | constructor].
  - apply Hopen; reflexivity.
Defined.

Lemma Set_touches_only_the_log_witness :
  files (Set_ (open_db 8) open_world "age" (bytes "30")).2 !! "other.bin"
    = files open_world !! "other.bin".
Proof.
  apply (Set_touches_only_the_log (open_db 8) open_world "age" (bytes "30") "other.bin").
  - intros f [= <-]. reflexivity.
  - discriminate.
  - vm_compute. discriminate.
Defined.

End ConcreteProperties.
